(** * Teleop recorder: a shallow embedding of [scripts/teleop_record.py]

    The recorder has two activities: the keyboard listener (callbacks
    [on_press] / [on_release] mutating the shared [held] set and the stop
    flag) and the capture loop of [main].  The embedding keeps the code's
    shape: the callbacks are functions on the shared state, the loop is a
    recursion over [range(N_STEPS_MAX)], and everything the loop obtains
    from outside (key events delivered by the listener thread, the result
    of the screen grab, the clock) is read from an explicit per-tick input.

    Python values are modelled as follows: [str] as [string] (8-bit
    characters), [set] of [str] as [gset string], [int] loop indices and
    action bits as [nat], an exception as the [Raise] branch of [result]. *)

From Stdlib Require Import Ascii String.
From stdpp Require Import base option list sorting gmap strings.

Local Open Scope string_scope.
Local Open Scope list_scope.

(** ** Exceptions *)

Inductive PyExc : Type :=
| AttributeError
| ScreenShotError.

Inductive result (A : Type) : Type :=
| Ok (a : A)
| Raise (e : PyExc).
Arguments Ok {A} a.
Arguments Raise {A} e.

#[global] Instance result_ret : MRet result := fun _ a => Ok a.
#[global] Instance result_bind : MBind result := fun _ _ f m =>
  match m with
  | Ok a => f a
  | Raise e => Raise e
  end.

(** ** Strings: [str.lower], comparison

    A character is a code point below 256 and a string a sequence of them.
    On these code points [str.isupper], [str.islower], [str.isalnum] and
    [str.lower] are the following: the capital letters are [A]-[Z] and
    U+00C0-U+00DE without the multiplication sign U+00D7, and each of them
    has its small letter 32 code points further on. *)

Definition in_range (lo hi : nat) (c : ascii) : bool :=
  (lo <=? nat_of_ascii c)%nat && (nat_of_ascii c <=? hi)%nat.

Definition is_upper (c : ascii) : bool :=
  in_range 65 90 c || in_range 192 214 c || in_range 216 222 c.


Definition is_digit (c : ascii) : bool := in_range 48 57 c.


(** One character of [str.lower()]: a capital letter moves to its small
    letter, every other character is kept. *)
Definition lower_char (c : ascii) : ascii :=
  if is_upper c then ascii_of_nat (nat_of_ascii c + 32) else c.

Fixpoint lower (s : string) : string :=
  match s with
  | EmptyString => EmptyString
  | String c s' => String (lower_char c) (lower s')
  end.

(** Python compares [str] values lexicographically by code point; this is
    [String.compare]. *)
Definition str_le (a b : string) : Prop := String.leb a b = true.
Definition str_lt (a b : string) : Prop := String.compare a b = Lt.

#[global] Instance str_le_dec : RelDecision str_le.
Proof. intros a b. unfold str_le. apply _. Defined.

(** [sorted(list(s))] for a set of strings. *)
Definition sorted (s : gset string) : list string :=
  merge_sort str_le (elements s).

(** ** Keys delivered by pynput

    A callback receives a [KeyCode] (whose [char] attribute may be [None]),
    a member of the [Key] enumeration (which has no [char] attribute), or
    [None] for a key pynput does not know. *)

Inductive SpecialKey : Type :=
| Key_up | Key_down | Key_left | Key_right
| Key_esc | Key_enter | Key_tab
| Key_shift | Key_shift_r
| Key_other (vk : N).

Inductive Key : Type :=
| KeyCode (char : option string)
| KeyEnum (k : SpecialKey)
| KeyUnknown.

#[global] Instance SpecialKey_eq_dec : EqDecision SpecialKey.
Proof. solve_decision. Defined.
#[global] Instance Key_eq_dec : EqDecision Key.
Proof. solve_decision. Defined.

(** The attribute access [key.char]. *)
Definition key_char (key : Key) : result (option string) :=
  match key with
  | KeyCode c => Ok c
  | KeyEnum _ | KeyUnknown => Raise AttributeError
  end.

(** The [try] block of [_key_to_name]: [Ok (Some n)] is [return n],
    [Ok None] is falling out of the block. *)
Definition char_name (key : Key) : result (option string) :=
  c ← key_char key;
  match c with
  | Some s => Ok (Some (lower s))
  | None => Ok None
  end.

(** The chain of comparisons against the [Key] members. *)
Definition special_name (key : Key) : option string :=
  if decide (key = KeyEnum Key_up) then Some "up"
  else if decide (key = KeyEnum Key_down) then Some "down"
  else if decide (key = KeyEnum Key_left) then Some "left"
  else if decide (key = KeyEnum Key_right) then Some "right"
  else if decide (key = KeyEnum Key_esc) then Some "esc"
  else if decide (key = KeyEnum Key_enter) then Some "enter"
  else if decide (key = KeyEnum Key_tab) then Some "tab"
  else if decide (key = KeyEnum Key_shift) then Some "left_shift"
  else if decide (key = KeyEnum Key_shift_r) then Some "right_shift"
  else None.

Definition _key_to_name (key : Key) : result (option string) :=
  match char_name key with
  | Ok (Some name) => Ok (Some name)
  | Ok None => Ok (special_name key)
  | Raise _ => Ok (special_name key)     (* except Exception: pass *)
  end.

(** ** Shared state and the listener callbacks *)

Record Shared : Type := mkShared {
  held : gset string;
  stop_flag : bool;
}.

(** What a callback returns: [None], or [False] (which stops the listener). *)
Inductive CallbackRet : Type := RetNone | RetFalse.

Definition on_press (key : Key) (sh : Shared) : result (Shared * CallbackRet) :=
  name ← _key_to_name key;
  match name with
  | None => Ok (sh, RetNone)
  | Some name =>
      if decide (name = "esc")
      then Ok (mkShared (held sh) true, RetFalse)
      else Ok (mkShared ({[name]} ∪ held sh) (stop_flag sh), RetNone)
  end.

Definition on_release (key : Key) (sh : Shared) : result (Shared * CallbackRet) :=
  name ← _key_to_name key;
  match name with
  | None => Ok (sh, RetNone)
  | Some name => Ok (mkShared (held sh ∖ {[name]}) (stop_flag sh), RetNone)
  end.

(** ** Keymap and action encoding *)

Definition KEYMAP : list (string * gset string) :=
  [ ("up",       {["w"; "up"]});
    ("down",     {["s"; "down"]});
    ("left",     {["a"; "left"]});
    ("right",    {["d"; "right"]});
    ("use_tool", {["mouse_left"; "c"]});
    ("interact", {["x"; "e"; "enter"]});
    ("menu",     {["esc"; "tab"]});
    ("run",      {["left_shift"; "right_shift"]}) ].

(** [any(a in held_now for a in aliases)] *)
Definition any_held (held_now aliases : gset string) : bool :=
  existsb (fun a => bool_decide (a ∈ held_now)) (elements aliases).

(** The loop that fills [action_vec] by [append]. *)
Definition encode (held_now : gset string) (keymap : list (string * gset string))
  : list nat :=
  foldl (fun action_vec entry =>
           action_vec ++ [if any_held held_now (snd entry) then 1 else 0])
        [] keymap.

(** ** Configuration constants *)

Definition REGION : list (string * nat) :=
  [("left", 320); ("top", 212); ("width", 1280); ("height", 720)].

Definition OUT_W : nat := 320.
Definition OUT_H : nat := 180.
Definition HZ : nat := 10.
Definition N_STEPS_MAX : nat := N.to_nat 10000.
Definition JPEG_QUALITY : nat := 90.

(** ** Decimal formatting: [str(n)] and [f"{t:05d}"] for [n, t >= 0] *)

Definition digit (d : N) : ascii := ascii_of_N (48 + d).

Fixpoint str_int_aux (fuel : nat) (n : N) (acc : string) : string :=
  match fuel with
  | 0 => acc
  | S fuel' =>
      let acc' := String (digit (n mod 10)) acc in
      if (n / 10 =? 0)%N then acc' else str_int_aux fuel' (n / 10) acc'
  end.

(** [str(n)]; a number has no more decimal digits than bits. *)
Definition str_int (n : N) : string := str_int_aux (S (N.size_nat n)) n "".

Definition str_nat (n : nat) : string := str_int (N.of_nat n).

Fixpoint zeros (k : nat) : string :=
  match k with
  | 0 => ""
  | S k' => String "0" (zeros k')
  end.

(** Zero-filling a string of digits to a width: a shorter string is padded
    on the left, a longer one is kept in full. *)
Definition zfill (width : nat) (s : string) : string :=
  zeros (width - String.length s) +:+ s.

(** [f"{t:05d}"] *)
Definition fmt_05d (t : nat) : string := zfill 5 (str_nat t).

(** [f"{t:05d}.jpg"] *)
Definition frame_name (t : nat) : string := fmt_05d t +:+ ".jpg".

(** Reading a file name back: the stem (the name without its four-character
    extension) as a number, [int(Path(name).stem)]. *)
Fixpoint int_of_digits (acc : N) (s : string) : option N :=
  match s with
  | EmptyString => Some acc
  | String c s' =>
      if is_digit c
      then int_of_digits (10 * acc + (N_of_ascii c - 48)) s'
      else None
  end.

Definition stem (name : string) : string :=
  String.substring 0 (String.length name - 4) name.

Definition frame_number (name : string) : option nat :=
  match stem name with
  | EmptyString => None
  | s => N.to_nat <$> int_of_digits 0 s
  end.

(** ** Paths *)

(** [a / b] on [pathlib.Path]. *)
Definition path_join (a b : string) : string := a +:+ "/" +:+ b.

Definition out_dir (run_id : string) : string :=
  path_join (path_join "data" "teleop") run_id.

Definition frames_dir (run_id : string) : string :=
  path_join (out_dir run_id) "frames".

(** [frames_dir / f"{t:05d}.jpg"] *)
Definition frame_path (run_id : string) (t : nat) : string :=
  path_join (frames_dir run_id) (frame_name t).

(** [f"frames/{t:05d}.jpg"] *)
Definition frame_ref (t : nat) : string := "frames/" +:+ frame_name t.

Definition manifest_path (run_id : string) : string :=
  path_join (out_dir run_id) "rollout.json".

(** ** The listener thread *)

Inductive KeyEvent : Type :=
| Press (key : Key)
| Release (key : Key).

(** The shared objects together with the listener's liveness: a callback
    that returns [False] (or raises) ends the listener, and a listener that
    has ended handles no further event. *)
Record World : Type := mkWorld {
  shared : Shared;
  listening : bool;
}.

Definition callback (ev : KeyEvent) (sh : Shared) : result (Shared * CallbackRet) :=
  match ev with
  | Press key => on_press key sh
  | Release key => on_release key sh
  end.

Definition deliver (w : World) (ev : KeyEvent) : World :=
  if listening w then
    match callback ev (shared w) with
    | Ok (sh, RetNone) => mkWorld sh true
    | Ok (sh, RetFalse) => mkWorld sh false
    | Raise _ => mkWorld (shared w) false
    end
  else w.

Definition deliver_all (evs : list KeyEvent) (w : World) : World :=
  foldl deliver w evs.

(** [held = set()], [stop_flag = {"stop": False}], [listener.start()] *)
Definition world0 : World := mkWorld (mkShared ∅ false) true.

(** ** Records, operations, and the state of a run *)

(** [time.time()]: only the value carried into the manifest matters; it is
    kept as a count of microseconds. *)
Definition Timestamp : Type := N.

(** The observation [obs] written by [cv2.imwrite]. *)
Definition Image : Type := list N.

Record StepRecord : Type := mkStep {
  t : nat;
  time_unix : Timestamp;
  held_keys : list string;
  action : list nat;
  frame : string;
}.

(** The [meta] dictionary, with its keys in insertion order. *)
Record Meta : Type := mkMeta {
  meta_region : list (string * nat);
  meta_out_size : list nat;
  meta_hz : nat;
  meta_keymap : list (string * list string);
  meta_start_time_unix : Timestamp;
  meta_steps : list StepRecord;
}.

(** What the loop does, in program order.  Every operation carries the
    tick index it belongs to. *)
Inductive Op : Type :=
| ReadStop (tick : nat) (stop : bool)          (* [if stop_flag["stop"]] *)
| Grab (tick : nat) (ok : bool)                (* [sct.grab] ... [cv2.resize] *)
| Snapshot (tick : nat) (held_now : gset string)
| WriteFrame (tick : nat) (path : string) (obs : Image) (quality : nat)
| Append (tick : nat) (r : StepRecord)         (* [meta["steps"].append] *)
| Sleep (tick : nat)
| ListenerStop
| DumpManifest (path : string) (meta : Meta).    (* [open] ... [json.dump] *)

Record RunState : Type := mkRun {
  world : World;
  steps : list StepRecord;
  log : list Op;
}.

(** What one tick receives from outside the loop. *)
Record TickInput : Type := mkTick {
  (** key events the listener handles after the previous snapshot and
      before this tick reads the stop flag *)
  keys_before_check : list KeyEvent;
  (** the downscaled frame, or [None] when the grab (or the conversion of
      what it returned) raises *)
  grabbed : option Image;
  (** key events handled between the stop check and the snapshot *)
  keys_before_snapshot : list KeyEvent;
  (** [time.time()] when the record is built *)
  clock : Timestamp;
}.

Record Env : Type := mkEnv {
  run_id : string;
  start_time : Timestamp;
  ticks : nat -> TickInput;
}.

(** ** A state-and-exception monad for [main] *)

Definition M (A : Type) : Type := RunState -> result A * RunState.

Definition ret {A} (a : A) : M A := fun st => (Ok a, st).
#[global] Instance M_ret : MRet M := @ret.
#[global] Instance M_bind : MBind M := fun _ _ f m st =>
  match m st with
  | (Ok a, st') => f a st'
  | (Raise e, st') => (Raise e, st')
  end.

Definition raise {A} (e : PyExc) : M A := fun st => (Raise e, st).
Definition emit (op : Op) : M unit :=
  fun st => (Ok (), mkRun (world st) (steps st) (log st ++ [op])).
Definition listener_runs (evs : list KeyEvent) : M unit :=
  fun st => (Ok (), mkRun (deliver_all evs (world st)) (steps st) (log st)).
Definition read_stop : M bool :=
  fun st => (Ok (stop_flag (shared (world st))), st).
Definition read_held : M (gset string) :=
  fun st => (Ok (held (shared (world st))), st).
Definition append_step (r : StepRecord) : M unit :=
  fun st => (Ok (), mkRun (world st) (steps st ++ [r]) (log st)).
Definition read_steps : M (list StepRecord) :=
  fun st => (Ok (steps st), st).

(** ** The capture loop *)

(** The body of the [for] loop after the stop check. *)
Definition tick_body (env : Env) (t : nat) : M unit :=
  let inp := ticks env t in
  match grabbed inp with
  | None => emit (Grab t false);; raise ScreenShotError
  | Some obs =>
      emit (Grab t true);;
      listener_runs (keys_before_snapshot inp);;
      held_now ← read_held;
      emit (Snapshot t held_now);;
      let action_vec := encode held_now KEYMAP in
      emit (WriteFrame t (frame_path (run_id env) t) obs JPEG_QUALITY);;
      let r := mkStep t (clock inp) (sorted held_now) action_vec (frame_ref t) in
      append_step r;;
      emit (Append t r);;
      emit (Sleep t)
  end.

(** [for t in range(...)] with its [break]. *)
Fixpoint loop (env : Env) (ts : list nat) : M unit :=
  match ts with
  | [] => ret ()
  | t :: ts' =>
      listener_runs (keys_before_check (ticks env t));;
      stop ← read_stop;
      emit (ReadStop t stop);;
      if (stop : bool) then ret ()
      else tick_body env t;; loop env ts'
  end.

(** [meta] as it stands once [recorded] has been appended to
    [meta["steps"]]. *)
Definition meta_of (env : Env) (recorded : list StepRecord) : Meta :=
  mkMeta REGION [OUT_W; OUT_H] HZ
         (map (fun entry => (fst entry, sorted (snd entry))) KEYMAP)
         (start_time env) recorded.

(** [listener.stop()]: the listener thread ends; the call does not raise. *)
Definition listener_stop : M unit :=
  fun st => (Ok (), mkRun (mkWorld (shared (world st)) false) (steps st)
                          (log st ++ [ListenerStop])).

Definition main_from (env : Env) (n_steps_max : nat) : M unit :=
  loop env (seq 0 n_steps_max);;
  listener_stop;;
  recorded ← read_steps;
  emit (DumpManifest (manifest_path (run_id env)) (meta_of env recorded)).

Definition run0 : RunState := mkRun world0 [] [].

Definition main (env : Env) : result unit * RunState :=
  main_from env N_STEPS_MAX run0.

(** ** The manifest document: [json.dump(meta, f, indent=2)] *)

#[local] Unset Elimination Schemes.
Inductive json : Type :=
| JInt (n : nat)
| JFloat (x : Timestamp)
| JStr (s : string)
| JList (items : list json)
| JDict (items : list (string * json)).
#[local] Set Elimination Schemes.

Definition json_of_step (r : StepRecord) : json :=
  JDict [("t", JInt (t r));
         ("time_unix", JFloat (time_unix r));
         ("held_keys", JList (map JStr (held_keys r)));
         ("action", JList (map JInt (action r)));
         ("frame", JStr (frame r))].

Definition json_of_keymap_entry (entry : string * list string) : json :=
  JDict [("name", JStr (fst entry)); ("aliases", JList (map JStr (snd entry)))].

Definition json_of_meta (m : Meta) : json :=
  JDict [("region", JDict (map (fun kv => (fst kv, JInt (snd kv))) (meta_region m)));
         ("out_size", JList (map JInt (meta_out_size m)));
         ("hz", JInt (meta_hz m));
         ("keymap", JList (map json_of_keymap_entry (meta_keymap m)));
         ("start_time_unix", JFloat (meta_start_time_unix m));
         ("steps", JList (map json_of_step (meta_steps m)))].

Definition dquote : ascii := ascii_of_nat 34.
Definition backslash : ascii := ascii_of_nat 92.
Definition newline : ascii := ascii_of_nat 10.

Definition hex_digit (n : N) : ascii :=
  if (n <? 10)%N then ascii_of_N (48 + n) else ascii_of_N (87 + n).

(** One character of a string literal, as the encoder writes it with
    [ensure_ascii]: the quote, the backslash and everything outside the
    printable ASCII range are escaped. *)
Definition escape_char (c : ascii) : string :=
  let n := N_of_ascii c in
  if (n =? 34)%N then String backslash (String dquote "")
  else if (n =? 92)%N then String backslash (String backslash "")
  else if (n =? 10)%N then String backslash "n"
  else if (n =? 13)%N then String backslash "r"
  else if (n =? 9)%N then String backslash "t"
  else if (n =? 8)%N then String backslash "b"
  else if (n =? 12)%N then String backslash "f"
  else if (n <? 32)%N || (126 <? n)%N
       then String backslash
              ("u00" +:+ String (hex_digit (n / 16)) (String (hex_digit (n mod 16)) ""))
  else String c "".

Fixpoint escape (s : string) : string :=
  match s with
  | EmptyString => EmptyString
  | String c s' => escape_char c +:+ escape s'
  end.

Definition json_str (s : string) : string :=
  String dquote (escape s +:+ String dquote "").

(** The zeros a decimal fraction ends in are not printed, except that one
    digit stays. *)
Fixpoint strip_zeros (s : string) : string :=
  match s with
  | EmptyString => EmptyString
  | String c s' =>
      match strip_zeros s' with
      | EmptyString => if Ascii.eqb c "0" then EmptyString else String c EmptyString
      | rest => String c rest
      end
  end.

Definition fraction (s : string) : string :=
  match strip_zeros s with
  | EmptyString => "0"
  | digits => digits
  end.

(** [repr] of the float of a timestamp, a whole number of microseconds:
    the shortest decimal that reads back as the same float, which for the
    seconds [time.time()] returns (below [2^32], printed without exponent)
    is the decimal of the microseconds without the zeros it ends in. *)
Definition float_repr (x : Timestamp) : string :=
  str_int (x / 1000000) +:+ "." +:+ fraction (zfill 6 (str_int (x mod 1000000))).

Fixpoint spaces (k : nat) : string :=
  match k with
  | 0 => ""
  | S k' => String " " (spaces k')
  end.

Definition newline_indent (level : nat) : string :=
  String newline (spaces (2 * level)).

Definition item_separator (level : nat) : string := "," +:+ newline_indent level.

Fixpoint dumps (level : nat) (v : json) : string :=
  match v with
  | JInt n => str_nat n
  | JFloat x => float_repr x
  | JStr s => json_str s
  | JList [] => "[]"
  | JList items =>
      "[" +:+ newline_indent (S level)
          +:+ String.concat (item_separator (S level)) (map (dumps (S level)) items)
          +:+ newline_indent level +:+ "]"
  | JDict [] => "{}"
  | JDict items =>
      "{" +:+ newline_indent (S level)
          +:+ String.concat (item_separator (S level))
                (map (fun kv => json_str (fst kv) +:+ ": " +:+ dumps (S level) (snd kv)) items)
          +:+ newline_indent level +:+ "}"
  end.

Definition json_dump (meta : Meta) : string := dumps 0 (json_of_meta meta).

(** ** Texts a JSON parser can accept

    The scanner follows string literals and bracket depth.  A parser
    accepts a text only if it holds a value, every string literal and
    bracket opened in it is closed by its end, and no bracket is closed that
    was not opened: [may_parse] is this necessary condition. *)

Inductive Mode : Type := Outside | InString | Escaped.

Definition is_open (c : ascii) : bool := Ascii.eqb c "{" || Ascii.eqb c "[".
Definition is_close (c : ascii) : bool := Ascii.eqb c "}" || Ascii.eqb c "]".

Definition scan_char (st : nat * Mode) (c : ascii) : option (nat * Mode) :=
  match st with
  | (d, Outside) =>
      if Ascii.eqb c dquote then Some (d, InString)
      else if is_open c then Some (S d, Outside)
      else if is_close c then
        match d with
        | 0 => None
        | S d' => Some (d', Outside)
        end
      else Some (d, Outside)
  | (d, InString) =>
      if Ascii.eqb c dquote then Some (d, Outside)
      else if Ascii.eqb c backslash then Some (d, Escaped)
      else Some (d, InString)
  | (d, Escaped) => Some (d, InString)
  end.

Fixpoint scan (st : nat * Mode) (s : string) : option (nat * Mode) :=
  match s with
  | EmptyString => Some st
  | String c s' =>
      match scan_char st c with
      | Some st' => scan st' s'
      | None => None
      end
  end.




(** ** Files *)

Inductive File : Type :=
| Jpeg (obs : Image) (quality : nat)
| Text (content : string).

(** Every prefix of a text, shortest first. *)
Fixpoint prefixes (s : string) : list string :=
  "" :: match s with
        | EmptyString => []
        | String c s' => map (String c) (prefixes s')
        end.

(** The states of the disk (path to file) that one operation makes
    observable, in order.  [cv2.imwrite] leaves the frame file;
    [open(path, "w")] leaves an empty file that then grows, write by write,
    to the whole document. *)
Definition op_disks (d : gmap string File) (op : Op) : list (gmap string File) :=
  match op with
  | WriteFrame _ path obs q => [<[path := Jpeg obs q]> d]
  | DumpManifest path meta =>
      map (fun p => <[path := Text p]> d) (prefixes (json_dump meta))
  | _ => []
  end.

(** The states the disk passes through while a log is performed. *)
Fixpoint disk_states (d : gmap string File) (lg : list Op) : list (gmap string File) :=
  match lg with
  | [] => []
  | op :: lg' =>
      op_disks d op ++ disk_states (default d (last (op_disks d op))) lg'
  end.

(** ** A closed description of the capture loop

    The listener evolves on its own; the loop only reads it.  The world
    seen by each tick, the record each completed tick appends, and the
    operations it performs are written here directly from the environment,
    and [loop] is shown to produce exactly them. *)

Definition after_check (env : Env) (t : nat) (w : World) : World :=
  deliver_all (keys_before_check (ticks env t)) w.

Definition after_snapshot (env : Env) (t : nat) (w : World) : World :=
  deliver_all (keys_before_snapshot (ticks env t)) (after_check env t w).

Fixpoint world_before (env : Env) (t : nat) : World :=
  match t with
  | 0 => world0
  | S t' => after_snapshot env t' (world_before env t')
  end.

Definition world_at_check (env : Env) (t : nat) : World :=
  after_check env t (world_before env t).

Definition held_at (env : Env) (t : nat) : gset string :=
  held (shared (after_snapshot env t (world_before env t))).

Definition record_of (env : Env) (t : nat) : StepRecord :=
  mkStep t (clock (ticks env t)) (sorted (held_at env t))
         (encode (held_at env t) KEYMAP) (frame_ref t).

(** The operations of a tick that found the stop flag clear. *)
Definition block (env : Env) (t : nat) : list Op :=
  ReadStop t false ::
  match grabbed (ticks env t) with
  | None => [Grab t false]
  | Some obs =>
      [Grab t true; Snapshot t (held_at env t);
       WriteFrame t (frame_path (run_id env) t) obs JPEG_QUALITY;
       Append t (record_of env t); Sleep t]
  end.

Inductive Ending : Type := Exhausted | Stopped | Crashed.

(** How many ticks of [range(a, a + n)] complete, and how the loop ends. *)
Fixpoint outcome (env : Env) (a n : nat) : nat * Ending :=
  match n with
  | 0 => (0, Exhausted)
  | S n' =>
      if stop_flag (shared (world_at_check env a)) then (0, Stopped)
      else match grabbed (ticks env a) with
           | None => (0, Crashed)
           | Some _ => let '(k, e) := outcome env (S a) n' in (S k, e)
           end
  end.

Definition loop_result (e : Ending) : result unit :=
  match e with
  | Crashed => Raise ScreenShotError
  | Exhausted | Stopped => Ok ()
  end.

Definition loop_world (env : Env) (t : nat) (e : Ending) : World :=
  match e with
  | Exhausted => world_before env t
  | Stopped | Crashed => world_at_check env t
  end.

Definition loop_tail (env : Env) (t : nat) (e : Ending) : list Op :=
  match e with
  | Exhausted => []
  | Stopped => [ReadStop t true]
  | Crashed => block env t
  end.

Definition finalization (env : Env) (recorded : list StepRecord) : list Op :=
  [ListenerStop; DumpManifest (manifest_path (run_id env)) (meta_of env recorded)].

(** The world [main] ends in: the listener is stopped unless the exception
    of a grab left the run before. *)
Definition final_world (env : Env) (t : nat) (e : Ending) : World :=
  match e with
  | Exhausted | Stopped => mkWorld (shared (loop_world env t e)) false
  | Crashed => loop_world env t e
  end.

(** ** Reading the log *)

Definition tick_of (op : Op) : option nat :=
  match op with
  | ReadStop t _ | Grab t _ | Snapshot t _ | WriteFrame t _ _ _
  | Append t _ | Sleep t => Some t
  | ListenerStop | DumpManifest _ _ => None
  end.

Definition is_read_stop (op : Op) : bool :=
  match op with ReadStop _ _ => true | _ => false end.

Definition is_dump (op : Op) : bool :=
  match op with DumpManifest _ _ => true | _ => false end.

(** Number of iterations the loop entered: each one reads the flag once. *)
Definition ticks_entered (lg : list Op) : nat :=
  length (filter (fun op => is_read_stop op = true) lg).

Definition completed (env : Env) : nat := fst (outcome env 0 N_STEPS_MAX).
Definition ending (env : Env) : Ending := snd (outcome env 0 N_STEPS_MAX).

Definition appended (lg : list Op) : list StepRecord :=
  omap (fun op => match op with Append _ r => Some r | _ => None end) lg.

(** How often tick [i] reads the stop flag. *)
Definition reads_of (i : nat) (lg : list Op) : nat :=
  length (filter (fun op => is_read_stop op = true /\ tick_of op = Some i) lg).

(** The bit [encode] writes for one keymap entry. *)
Definition bit_of (H : gset string) (entry : string * gset string) : nat :=
  if any_held H (snd entry) then 1 else 0.

(** ** File names below the cap *)

Fixpoint N_range (k : nat) (start : N) : list N :=
  match k with
  | 0 => []
  | S k' => start :: N_range k' (N.succ start)
  end.

(** What is checked, by evaluation, of the name of every index below the
    cap: it is smaller than the next name, it reads back as the index, and
    its number part has five characters. *)
Definition name_ok (i : N) : bool :=
  String.ltb (zfill 5 (str_int i) +:+ ".jpg") (zfill 5 (str_int (N.succ i)) +:+ ".jpg")
  && bool_decide (int_of_digits 0 (stem (zfill 5 (str_int i) +:+ ".jpg")) = Some i)
  && bool_decide (stem (zfill 5 (str_int i) +:+ ".jpg") = zfill 5 (str_int i))
  && (String.length (zfill 5 (str_int i)) =? 5)%nat.

(** ** Balanced texts *)

(** A balanced text brings the scanner back to where it was, at any depth. *)
Definition balanced (s : string) : Prop :=
  forall d, scan (d, Outside) s = Some (d, Outside).

(** Characters that leave the scanner alone outside a string literal. *)
Definition inert (c : ascii) : bool :=
  negb (Ascii.eqb c dquote) && negb (is_open c) && negb (is_close c).

Fixpoint all_inert (s : string) : bool :=
  match s with
  | EmptyString => true
  | String c s' => inert c && all_inert s'
  end.

(** Induction on [json] values, through the lists they nest. *)
Section json_induction.
Variable P : json -> Prop.
Hypothesis P_int : forall n, P (JInt n).
Hypothesis P_float : forall x, P (JFloat x).
Hypothesis P_str : forall s, P (JStr s).
Hypothesis P_list : forall items, Forall P items -> P (JList items).
Hypothesis P_dict : forall items, Forall (fun kv => P (snd kv)) items -> P (JDict items).

Fixpoint json_nested_ind (v : json) : P v :=
  match v with
  | JInt n => P_int n
  | JFloat x => P_float x
  | JStr s => P_str s
  | JList items =>
      P_list items
        ((fix go (l : list json) : Forall P l :=
            match l with
            | [] => List.Forall_nil P
            | x :: l' => @List.Forall_cons _ P x l' (json_nested_ind x) (go l')
            end) items)
  | JDict items =>
      P_dict items
        ((fix go (l : list (string * json)) : Forall (fun kv => P (snd kv)) l :=
            match l with
            | [] => List.Forall_nil _
            | kv :: l' =>
                @List.Forall_cons _ (fun kv => P (snd kv)) kv l'
                  (json_nested_ind (snd kv)) (go l')
            end) items)
  end.
End json_induction.

(** ** The claims that fail, as stated *)

(** C2 as stated: a tick whose grab fails persists nothing, and the run
    goes on with the next tick instead of aborting. *)
Definition failed_grab_skipped (env : Env) : Prop :=
  forall i, Grab i false ∈ log (snd (main env)) ->
    (forall path obs q, WriteFrame i path obs q ∉ log (snd (main env)))
    /\ (forall r, r ∈ steps (snd (main env)) -> t r <> i)
    /\ fst (main env) = Ok ()
    /\ (S i < N_STEPS_MAX -> exists b, ReadStop (S i) b ∈ log (snd (main env))).


(** C5 as stated: every tick that has started -- that read the stop flag
    clear -- reads it once and runs to completion, its frame write and its
    append included. *)
Definition started_tick_completes (env : Env) : Prop :=
  forall i, ReadStop i false ∈ log (snd (main env)) ->
    reads_of i (log (snd (main env))) = 1
    /\ (exists path obs q, WriteFrame i path obs q ∈ log (snd (main env)))
    /\ (exists r, Append i r ∈ log (snd (main env))).

(** ** Example environments *)

Definition key_w : Key := KeyCode (Some "W").

(** [W] is down before the first tick, [TAB] goes down during it; during
    the second tick [W] is released and [ESC] is pressed. *)
Definition env_stop : Env :=
  mkEnv "20260225_142233" 1772029353000000%N
    (fun i =>
       match i with
       | 0 => mkTick [Press key_w] (Some [1%N]) [Press (KeyEnum Key_tab)] 1772029353100000%N
       | 1 => mkTick [] (Some [2%N]) [Release key_w; Press (KeyEnum Key_esc)] 1772029353200000%N
       | _ => mkTick [] (Some [3%N]) [] 1772029353300000%N
       end).

(** The first grab succeeds, the second one raises. *)
Definition env_grab_fails : Env :=
  mkEnv "20260225_142233" 1772029353000000%N
    (fun i =>
       match i with
       | 0 => mkTick [Press key_w] (Some [1%N]) [] 1772029353100000%N
       | _ => mkTick [] None [] 1772029353200000%N
       end).

Definition step0_grab_fails : StepRecord :=
  mkStep 0 1772029353100000%N ["w"] [1; 0; 0; 0; 0; 0; 0; 0] "frames/00000.jpg".

Definition step1_stop : StepRecord :=
  mkStep 1 1772029353200000%N ["tab"] [0; 0; 0; 0; 0; 0; 1; 0] "frames/00001.jpg".

Ltac in_list := apply list_elem_of_In; vm_compute; repeat first [left; reflexivity | right].

(** ** Further descriptions of the listener *)

(** The listener is alive exactly while the stop flag is clear. *)
Definition listener_consistent (w : World) : Prop :=
  listening w = negb (stop_flag (shared w)).

(** The names of the keys pressed in a list of events. *)
Definition pressed_name (n : string) (evs : list KeyEvent) : Prop :=
  exists key, Press key ∈ evs /\ _key_to_name key = Ok (Some n).

(** ** The disk after a log *)

(** The paths the loop wrote frames to, in order. *)
Definition frame_paths (lg : list Op) : list string :=
  omap (fun op => match op with WriteFrame _ p _ _ => Some p | _ => None end) lg.

(** The disk once an operation is over: its last observable state, or the
    disk as it was when the operation does not touch it. *)
Definition apply_op (d : gmap string File) (op : Op) : gmap string File :=
  default d (last (op_disks d op)).

Definition disk_after (d : gmap string File) (lg : list Op) : gmap string File :=
  foldl apply_op d lg.

(** [ESC] is pressed before the first tick reads the stop flag. *)
Definition env_esc_first : Env :=
  mkEnv "20260225_142233" 1772029353000000%N
    (fun _ => mkTick [Press (KeyEnum Key_esc)] (Some [1%N]) [] 1772029353100000%N).

(** ** Characters of a text *)

Fixpoint str_forall (P : ascii -> bool) (s : string) : bool :=
  match s with
  | EmptyString => true
  | String c s' => P c && str_forall P s'
  end.

(** Printable ASCII, or the line feed. *)
Definition plain_char (c : ascii) : bool :=
  let n := N_of_ascii c in
  ((32 <=? n)%N && (n <=? 126)%N) || (n =? 10)%N.

(** ** The readers of a run: [inspect_teleop.py], [train_bc_multilabel.py] *)

Inductive ReaderError : Type :=
| FileNotFoundError
| IndexError
| ZeroDivisionError
| UnidentifiedImageError.

Inductive attempt (A : Type) : Type :=
| Returns (a : A)
| Throws (e : ReaderError).
Arguments Returns {A} a.
Arguments Throws {A} e.

(** An entry of the base directory, as [base.glob("*")] lists it and
    [is_dir()] classifies it. *)
Record DirEntry : Type := mkEntry {
  entry_name : string;
  entry_is_dir : bool;
}.

(** [newest_rollout_dir]: the directories sorted (paths under one base
    compare as their names), the last one returned, [FileNotFoundError]
    when there is none. *)
Definition newest_rollout_dir (base : string) (entries : list DirEntry) : attempt string :=
  let runs :=
    merge_sort str_le
      (map entry_name (filter (fun p => entry_is_dir p = true) entries)) in
  match last runs with
  | None => Throws FileNotFoundError
  | Some name => Returns (path_join base name)
  end.

(** The local time [time.strftime] formats. *)
Record struct_time : Type := mkTime {
  tm_year : N;
  tm_mon : N;
  tm_mday : N;
  tm_hour : N;
  tm_min : N;
  tm_sec : N;
}.

(** [time.strftime("%Y%m%d_%H%M%S")] for a four-digit year. *)
Definition strftime_run_id (tm : struct_time) : string :=
  zfill 4 (str_int (tm_year tm)) +:+ zfill 2 (str_int (tm_mon tm))
    +:+ zfill 2 (str_int (tm_mday tm)) +:+ "_"
    +:+ zfill 2 (str_int (tm_hour tm)) +:+ zfill 2 (str_int (tm_min tm))
    +:+ zfill 2 (str_int (tm_sec tm)).

Definition four_digit_year (tm : struct_time) : Prop :=
  (1000 <= tm_year tm < 10000)%N
  /\ (tm_mon tm < 100)%N /\ (tm_mday tm < 100)%N
  /\ (tm_hour tm < 100)%N /\ (tm_min tm < 100)%N /\ (tm_sec tm < 100)%N.

(** The reading of the local clock as one number: the six fields in the
    order of their weight.  It orders readings, not instants: when the
    local clock is set back, a later instant has a smaller reading. *)
Definition tm_key (tm : struct_time) : N :=
  ((((tm_year tm * 100 + tm_mon tm) * 100 + tm_mday tm) * 100
    + tm_hour tm) * 100 + tm_min tm) * 100 + tm_sec tm.

(** What is checked, by evaluation, of every number of the given width. *)
Definition width_ok (w : nat) (i : N) : bool :=
  String.ltb (zfill w (str_int i)) (zfill w (str_int (N.succ i)))
  && (String.length (zfill w (str_int i)) =? w)%nat
  && (String.length (zfill w (str_int (N.succ i))) =? w)%nat.

(** ** Counting actions: [inspect_teleop.main] *)

(** [collections.Counter]: a key that is missing reads as zero, and
    [c[k] += 1] stores the successor of what was read. *)
Definition counter_get `{Countable K} (c : gmap K nat) (k : K) : nat :=
  default 0 (c !! k).

Definition counter_incr `{Countable K} (c : gmap K nat) (k : K) : gmap K nat :=
  <[k := S (counter_get c k)]> c.

(** [for i, v in enumerate(a): if v == 1: on_counts[names[i]] += 1], from
    position [i] on; [names[i]] raises [IndexError] past the end. *)
Fixpoint count_bits (names : list string) (i : nat) (a : list nat)
    (on_counts : gmap string nat) : attempt (gmap string nat) :=
  match a with
  | [] => Returns on_counts
  | v :: a' =>
      if (v =? 1)%nat then
        match names !! i with
        | Some n => count_bits names (S i) a' (counter_incr on_counts n)
        | None => Throws IndexError
        end
      else count_bits names (S i) a' on_counts
  end.

(** [for s in steps: ...; combos[tuple(a)] += 1] *)
Fixpoint count_steps (names : list string) (recorded : list StepRecord)
    (on_counts : gmap string nat) (combos : gmap (list nat) nat)
  : attempt (gmap string nat * gmap (list nat) nat) :=
  match recorded with
  | [] => Returns (on_counts, combos)
  | s :: rest =>
      match count_bits names 0 (action s) on_counts with
      | Throws e => Throws e
      | Returns on_counts' =>
          count_steps names rest on_counts' (counter_incr combos (action s))
      end
  end.

(** A line of the report: the name, its count, and the number of steps the
    count is divided by. *)
Fixpoint on_lines (names : list string) (on_counts : gmap string nat)
    (n_steps : nat) : attempt (list (string * nat * nat)) :=
  match names with
  | [] => Returns []
  | n :: names' =>
      if (n_steps =? 0)%nat then Throws ZeroDivisionError
      else
        match on_lines names' on_counts n_steps with
        | Throws e => Throws e
        | Returns lines => Returns ((n, counter_get on_counts n, n_steps) :: lines)
        end
  end.

(** The counting part of [inspect_teleop.main], from the parsed manifest to
    the number of unique combinations: the lines of the report and the
    counter of combinations. *)
Definition inspect_counts (meta : Meta)
  : attempt (list (string * nat * nat) * gmap (list nat) nat) :=
  let recorded := meta_steps meta in
  let names := map fst (meta_keymap meta) in
  match count_steps names recorded ∅ ∅ with
  | Throws e => Throws e
  | Returns (on_counts, combos) =>
      match on_lines names on_counts (length recorded) with
      | Throws e => Throws e
      | Returns lines => Returns (lines, combos)
      end
  end.

(** The number of records with the bit at a position set, and the number of
    records with a given action vector. *)
Definition bit_count (j : nat) (recorded : list StepRecord) : nat :=
  length (filter (fun s => action s !! j = Some 1) recorded).

Definition combo_count (a : list nat) (recorded : list StepRecord) : nat :=
  length (filter (fun s => action s = a) recorded).

(** ** The training set: [TeleopDataset] *)

Record TeleopDataset : Type := mkDataset {
  rollout_dir : string;
  ds_steps : list StepRecord;
  action_dim : nat;
}.

(** [__init__], from the directory and its parsed manifest. *)
Definition dataset_init (dir : string) (meta : Meta) : TeleopDataset :=
  mkDataset dir (meta_steps meta) (length (meta_keymap meta)).

(** [__len__] *)
Definition dataset_len (ds : TeleopDataset) : nat := length (ds_steps ds).

(** [l[idx]] for a Python integer: a negative index counts from the end. *)
Definition py_index {A : Type} (l : list A) (idx : Z) : attempt A :=
  let n := Z.of_nat (length l) in
  let pos := if (idx <? 0)%Z then (idx + n)%Z else idx in
  if ((pos <? 0) || (n <=? pos))%Z then Throws IndexError
  else match l !! Z.to_nat pos with
       | Some x => Returns x
       | None => Throws IndexError
       end.

(** [__getitem__] against a disk.  [to_tensor] stands for what the source
    does with the file it opens -- decoding the JPEG, [convert("RGB")] and
    [TF.to_tensor] -- as a function of the image and the quality the file
    was written with; the item is that tensor and the entries of the
    record's action vector as the label. *)
Definition dataset_getitem {Tensor : Type} (to_tensor : Image -> nat -> Tensor)
    (disk : gmap string File) (ds : TeleopDataset) (idx : Z)
  : attempt (Tensor * list nat) :=
  match py_index (ds_steps ds) idx with
  | Throws e => Throws e
  | Returns s =>
      match disk !! path_join (rollout_dir ds) (frame s) with
      | None => Throws FileNotFoundError
      | Some (Text _) => Throws UnidentifiedImageError
      | Some (Jpeg obs quality) => Returns (to_tensor obs quality, action s)
      end
  end.

(** * Properties *)

(** ** The action encoder *)

Lemma any_held_true (H aliases : gset string) :
  any_held H aliases = true <-> H ∩ aliases ≠ ∅.
Proof.
  unfold any_held. rewrite existsb_exists. split.
  - intros (a & Hin & Hb). apply bool_decide_eq_true in Hb.
    apply list_elem_of_In, elem_of_elements in Hin. set_solver.
  - intros Hne. apply set_choose_L in Hne as [a Ha].
    apply elem_of_intersection in Ha as [HaH Haa].
    exists a. split.
    + by apply list_elem_of_In, elem_of_elements.
    + by apply bool_decide_eq_true.
Qed.

Lemma any_held_false (H aliases : gset string) :
  any_held H aliases = false <-> H ∩ aliases = ∅.
Proof.
  rewrite <- not_true_iff_false, any_held_true.
  split; [apply dec_stable | auto].
Qed.

Lemma encode_acc (H : gset string) (K : list (string * gset string)) (acc : list nat) :
  foldl (fun action_vec entry =>
           action_vec ++ [if any_held H (snd entry) then 1 else 0]) acc K
  = acc ++ map (bit_of H) K.
Proof.
  revert acc. induction K as [|e K IH]; intros acc; simpl.
  - by rewrite app_nil_r.
  - rewrite IH, <- app_assoc. reflexivity.
Qed.

Lemma encode_map (H : gset string) (K : list (string * gset string)) :
  encode H K = map (bit_of H) K.
Proof. unfold encode. by rewrite encode_acc. Qed.

Lemma encode_lookup (H : gset string) (K : list (string * gset string)) (i : nat) :
  encode H K !! i = bit_of H <$> K !! i.
Proof. rewrite encode_map. apply list_lookup_fmap. Qed.

Lemma encode_length (H : gset string) (K : list (string * gset string)) :
  length (encode H K) = length K.
Proof. rewrite encode_map. apply length_map. Qed.

Lemma encode_bit (H : gset string) (K : list (string * gset string))
      (i : nat) (name : string) (aliases : gset string) :
  K !! i = Some (name, aliases) ->
  (encode H K !! i = Some 1 <-> H ∩ aliases ≠ ∅) /\
  (encode H K !! i = Some 0 <-> H ∩ aliases = ∅).
Proof.
  intros Hi. rewrite encode_lookup, Hi. simpl. unfold bit_of. simpl.
  destruct (any_held H aliases) eqn:E.
  - apply any_held_true in E. repeat split; auto; try congruence.
  - apply any_held_false in E. repeat split; auto; try congruence.
Qed.

(** C1. For every snapshot [H] and keymap [K], [encode H K] has the length
    of [K], and its position [i] holds 1 exactly when [H] meets the alias
    set of the [i]-th entry, and 0 exactly when it does not. *)
Theorem encode_correct (H : gset string) (K : list (string * gset string)) :
  length (encode H K) = length K /\
  forall i name aliases, K !! i = Some (name, aliases) ->
    (encode H K !! i = Some 1 <-> H ∩ aliases ≠ ∅) /\
    (encode H K !! i = Some 0 <-> H ∩ aliases = ∅) /\
    (encode H K !! i = Some 1 \/ encode H K !! i = Some 0).
Proof.
  split; [apply encode_length|].
  intros i name aliases Hi.
  destruct (encode_bit H K i name aliases Hi) as [H1 H0].
  split; [exact H1|]. split; [exact H0|].
  destruct (decide (H ∩ aliases = ∅)) as [He|Hne].
  - right. by apply H0.
  - left. by apply H1.
Qed.

Lemma encode_correct_witness :
  encode {["w"; "left_shift"]} [("up", {["w"; "up"]}); ("down", {["s"]}); ("run", {["left_shift"]})]
    = [1; 0; 1] /\
  (encode {["w"; "left_shift"]} [("up", {["w"; "up"]}); ("down", {["s"]}); ("run", {["left_shift"]})] !! 1
     = Some 0 <-> ({["w"; "left_shift"]} : gset string) ∩ {["s"]} = ∅).
Proof.
  split; [vm_compute; reflexivity|].
  exact (proj1 (proj2 (proj2 (encode_correct {["w"; "left_shift"]}
                  [("up", {["w"; "up"]}); ("down", {["s"]}); ("run", {["left_shift"]})])
           1 "down" {["s"]} eq_refl))).
Defined.

(** ** Key normalisation and the listener callbacks *)

Lemma key_to_name_total (key : Key) : exists name, _key_to_name key = Ok name.
Proof.
  unfold _key_to_name. destruct (char_name key) as [[name|]|e]; eauto.
Qed.

Lemma lower_char_not_upper (c : ascii) : is_upper (lower_char c) = false.
Proof.
  destruct c as [[] [] [] [] [] [] [] []]; vm_compute; reflexivity.
Qed.


Lemma lower_char_fixed (c : ascii) : is_upper c = false -> lower_char c = c.
Proof. unfold lower_char. by intros ->. Qed.





Lemma on_press_total (key : Key) (sh : Shared) :
  exists sh' r, on_press key sh = Ok (sh', r).
Proof.
  unfold on_press. destruct (key_to_name_total key) as [[name|] ->]; simpl; eauto.
  destruct (decide (name = "esc")); eauto.
Qed.

Lemma on_release_total (key : Key) (sh : Shared) :
  exists sh' r, on_release key sh = Ok (sh', r).
Proof.
  unfold on_release. destruct (key_to_name_total key) as [[name|] ->]; simpl; eauto.
Qed.



(** ["esc"] is never added to [held]. *)
Lemma callback_no_esc (ev : KeyEvent) (sh sh' : Shared) (r : CallbackRet) :
  callback ev sh = Ok (sh', r) -> "esc" ∉ held sh -> "esc" ∉ held sh'.
Proof.
  destruct ev as [key|key]; simpl.
  - unfold on_press. destruct (key_to_name_total key) as [[name|] ->]; simpl.
    + destruct (decide (name = "esc")) as [->|Hne]; intros [= <- <-]; simpl.
      * done.
      * intros Hesc. rewrite elem_of_union, elem_of_singleton.
        intros [Heq|Hin]; [by apply Hne|by apply Hesc].
    + by intros [= <- <-].
  - unfold on_release. destruct (key_to_name_total key) as [[name|] ->]; simpl.
    + intros [= <- <-]; simpl. intros Hesc. rewrite elem_of_difference.
      intros [Hin _]. by apply Hesc.
    + by intros [= <- <-].
Qed.

Lemma deliver_no_esc (w : World) (ev : KeyEvent) :
  "esc" ∉ held (shared w) -> "esc" ∉ held (shared (deliver w ev)).
Proof.
  intros Hw. unfold deliver. destruct (listening w); [|done].
  destruct (callback ev (shared w)) as [[sh' []]|e] eqn:E; simpl; try done;
    eapply callback_no_esc; eauto.
Qed.

Lemma deliver_all_no_esc (evs : list KeyEvent) (w : World) :
  "esc" ∉ held (shared w) -> "esc" ∉ held (shared (deliver_all evs w)).
Proof.
  unfold deliver_all. revert w.
  induction evs as [|ev evs IH]; intros w Hw; simpl; [done|].
  apply IH. by apply deliver_no_esc.
Qed.

Lemma loop_closed (env : Env) (n a : nat) (st : RunState) :
  world st = world_before env a ->
  loop env (seq a n) st =
    (loop_result (snd (outcome env a n)),
     mkRun (loop_world env (a + fst (outcome env a n)) (snd (outcome env a n)))
           (steps st ++ map (record_of env) (seq a (fst (outcome env a n))))
           (log st ++ flat_map (block env) (seq a (fst (outcome env a n)))
                   ++ loop_tail env (a + fst (outcome env a n)) (snd (outcome env a n)))).
Proof.
  revert a st. induction n as [|n IH]; intros a [w ss lg] Hw; simpl in Hw; subst w.
  - simpl. rewrite !app_nil_r, Nat.add_0_r. reflexivity.
  - cbn [seq loop outcome].
    unfold mbind, M_bind, listener_runs, read_stop, emit at 1. cbn [world steps log].
    fold (after_check env a (world_before env a)). fold (world_at_check env a).
    destruct (stop_flag (shared (world_at_check env a))) eqn:Hstop.
    + cbn. rewrite Nat.add_0_r, app_nil_r. reflexivity.
    + unfold tick_body, block. cbn zeta.
      destruct (grabbed (ticks env a)) as [obs|] eqn:Hg.
      * unfold mbind, M_bind, listener_runs, read_held, append_step, emit.
        cbn [world steps log fst snd].
        change (held (shared (deliver_all (keys_before_snapshot (ticks env a))
                                (world_at_check env a)))) with (held_at env a).
        change (mkStep a (clock (ticks env a)) (sorted (held_at env a))
                  (encode (held_at env a) KEYMAP) (frame_ref a))
          with (record_of env a).
        rewrite IH by reflexivity.
        destruct (outcome env (S a) n) as [k e] eqn:Ho.
        cbn [fst snd seq map flat_map world steps log].
        rewrite <- !Nat.add_succ_comm. unfold block. rewrite Hg.
        f_equal. f_equal; rewrite <- ?app_assoc; reflexivity.
      * unfold mbind, M_bind, emit, raise. cbn.
        rewrite Nat.add_0_r, app_nil_r, <- app_assoc. unfold block. rewrite Hg. reflexivity.
Qed.

Lemma main_from_closed (env : Env) (n : nat) :
  main_from env n run0 =
    let k := fst (outcome env 0 n) in
    let e := snd (outcome env 0 n) in
    let recorded := map (record_of env) (seq 0 k) in
    (loop_result e,
     mkRun (final_world env k e) recorded
           (flat_map (block env) (seq 0 k) ++ loop_tail env k e
              ++ match e with
                 | Crashed => []
                 | Exhausted | Stopped => finalization env recorded
                 end)).
Proof.
  unfold main_from. unfold mbind at 1. unfold M_bind at 1.
  rewrite loop_closed by reflexivity.
  destruct (outcome env 0 n) as [k e]. cbn [fst snd run0 steps log app]. simpl Nat.add.
  destruct e; unfold mbind, M_bind, emit, listener_stop, read_steps, finalization;
    cbn [loop_result loop_tail loop_world final_world world steps log];
    rewrite ?app_nil_r, <- ?app_assoc; reflexivity.
Qed.

(** Facts about [outcome]. *)
Lemma outcome_le (env : Env) (n a : nat) : fst (outcome env a n) <= n.
Proof.
  revert a. induction n as [|n IH]; intros a; simpl; [lia|].
  destruct (stop_flag _); simpl; [lia|].
  destruct (grabbed _); simpl; [|lia].
  specialize (IH (S a)). destruct (outcome env (S a) n). simpl in *. lia.
Qed.

Lemma outcome_exhausted (env : Env) (n a : nat) :
  snd (outcome env a n) = Exhausted -> fst (outcome env a n) = n.
Proof.
  revert a. induction n as [|n IH]; intros a; simpl; [done|].
  destruct (stop_flag _); simpl; [done|].
  destruct (grabbed _); simpl; [|done].
  specialize (IH (S a)). destruct (outcome env (S a) n). simpl in *.
  intros He. by rewrite IH.
Qed.

Lemma outcome_not_exhausted (env : Env) (n a : nat) :
  snd (outcome env a n) <> Exhausted -> fst (outcome env a n) < n.
Proof.
  revert a. induction n as [|n IH]; intros a; simpl; [done|].
  destruct (stop_flag _); simpl; [lia|].
  destruct (grabbed _); simpl; [|lia].
  specialize (IH (S a)). destruct (outcome env (S a) n). simpl in *.
  intros He. specialize (IH He). lia.
Qed.

(** Every tick before the last one found the flag clear and got a frame. *)
Lemma outcome_completed (env : Env) (n a t : nat) :
  a <= t < a + fst (outcome env a n) ->
  stop_flag (shared (world_at_check env t)) = false /\
  exists obs, grabbed (ticks env t) = Some obs.
Proof.
  revert a. induction n as [|n IH]; intros a; simpl; [lia|].
  destruct (stop_flag (shared (world_at_check env a))) eqn:Hs; simpl; [lia|].
  destruct (grabbed (ticks env a)) as [obs|] eqn:Hg; simpl; [|lia].
  specialize (IH (S a)). destruct (outcome env (S a) n) as [k e]. simpl in *.
  intros Ht. destruct (decide (t = a)) as [->|Hne]; [eauto|].
  apply IH. lia.
Qed.

Lemma outcome_stopped (env : Env) (n a : nat) :
  snd (outcome env a n) = Stopped ->
  stop_flag (shared (world_at_check env (a + fst (outcome env a n)))) = true.
Proof.
  revert a. induction n as [|n IH]; intros a; simpl; [done|].
  destruct (stop_flag (shared (world_at_check env a))) eqn:Hs; simpl.
  { by rewrite Nat.add_0_r. }
  destruct (grabbed (ticks env a)) as [obs|] eqn:Hg; simpl; [|done].
  specialize (IH (S a)). destruct (outcome env (S a) n) as [k e]. simpl in *.
  intros He. rewrite <- Nat.add_succ_comm. by apply IH.
Qed.

Lemma outcome_crashed (env : Env) (n a : nat) :
  snd (outcome env a n) = Crashed ->
  stop_flag (shared (world_at_check env (a + fst (outcome env a n)))) = false /\
  grabbed (ticks env (a + fst (outcome env a n))) = None.
Proof.
  revert a. induction n as [|n IH]; intros a; simpl; [done|].
  destruct (stop_flag (shared (world_at_check env a))) eqn:Hs; simpl; [done|].
  destruct (grabbed (ticks env a)) as [obs|] eqn:Hg; simpl.
  - specialize (IH (S a)). destruct (outcome env (S a) n) as [k e]. simpl in *.
    intros He. rewrite <- Nat.add_succ_comm. by apply IH.
  - by rewrite Nat.add_0_r.
Qed.

(** ** Reading the log: lemmas *)

Lemma main_closed (env : Env) :
  main env =
    (loop_result (ending env),
     mkRun (final_world env (completed env) (ending env))
           (map (record_of env) (seq 0 (completed env)))
           (flat_map (block env) (seq 0 (completed env))
              ++ loop_tail env (completed env) (ending env)
              ++ match ending env with
                 | Crashed => []
                 | Exhausted | Stopped =>
                     finalization env (map (record_of env) (seq 0 (completed env)))
                 end)).
Proof. unfold main. rewrite main_from_closed. reflexivity. Qed.

Lemma main_steps (env : Env) :
  steps (snd (main env)) = map (record_of env) (seq 0 (completed env)).
Proof. by rewrite main_closed. Qed.

Lemma main_steps_lookup (env : Env) (i : nat) (r : StepRecord) :
  steps (snd (main env)) !! i = Some r <-> i < completed env /\ r = record_of env i.
Proof.
  rewrite main_steps, list_lookup_fmap. split.
  - intros Hr. destruct (seq 0 (completed env) !! i) as [j|] eqn:Hj; [|done].
    apply lookup_seq in Hj as [-> Hlt]. simpl in Hr. split; [done|congruence].
  - intros [Hlt ->]. by rewrite (lookup_seq_lt 0 (completed env) i Hlt).
Qed.

Lemma main_steps_elem (env : Env) (r : StepRecord) :
  r ∈ steps (snd (main env)) <-> exists i, i < completed env /\ r = record_of env i.
Proof.
  rewrite list_elem_of_lookup. split.
  - intros [i Hi]. exists i. by apply main_steps_lookup.
  - intros [i Hi]. exists i. by apply main_steps_lookup.
Qed.

Lemma completed_le (env : Env) : completed env <= N_STEPS_MAX.
Proof. apply outcome_le. Qed.

Lemma completed_grabbed (env : Env) (i : nat) :
  i < completed env -> exists obs, grabbed (ticks env i) = Some obs.
Proof.
  intros Hi. apply (outcome_completed env N_STEPS_MAX 0 i).
  unfold completed in Hi. lia.
Qed.

Lemma elem_of_blocks (env : Env) (a k : nat) (op : Op) :
  op ∈ flat_map (block env) (seq a k) <->
  exists i, a <= i < a + k /\ op ∈ block env i.
Proof.
  rewrite list_elem_of_In, in_flat_map. split.
  - intros (i & Hi & Hop). apply in_seq in Hi. exists i. by rewrite list_elem_of_In.
  - intros (i & Hi & Hop). exists i. by rewrite in_seq, <- list_elem_of_In.
Qed.

Lemma block_tick (env : Env) (i : nat) (op : Op) :
  op ∈ block env i -> tick_of op = Some i.
Proof.
  unfold block. destruct (grabbed (ticks env i));
    rewrite ?elem_of_cons, elem_of_nil; intuition (subst; reflexivity).
Qed.

Lemma tail_tick (env : Env) (k : nat) (e : Ending) (op : Op) :
  op ∈ loop_tail env k e -> tick_of op = Some k /\ e <> Exhausted.
Proof.
  destruct e; simpl.
  - by rewrite elem_of_nil.
  - rewrite list_elem_of_singleton. by intros ->.
  - intros Hop. split; [by eapply block_tick|done].
Qed.

(** Where an operation of the final log comes from. *)
Lemma main_log_elem (env : Env) (op : Op) :
  op ∈ log (snd (main env)) <->
    (exists i, i < completed env /\ op ∈ block env i)
    \/ op ∈ loop_tail env (completed env) (ending env)
    \/ (ending env <> Crashed /\
        op ∈ finalization env (steps (snd (main env)))).
Proof.
  rewrite main_steps. rewrite main_closed. cbn [snd log].
  rewrite !elem_of_app, elem_of_blocks.
  split.
  - intros [(i & Hi & Hop)|[Hop|Hop]].
    + left. exists i. split; [lia|done].
    + auto.
    + right; right. destruct (ending env); [done| done |by apply elem_of_nil in Hop].
  - intros [(i & Hi & Hop)|[Hop|[Hne Hop]]].
    + left. exists i. split; [lia|done].
    + auto.
    + right; right. by destruct (ending env).
Qed.

Lemma finalization_tick (env : Env) (ss : list StepRecord) (op : Op) :
  op ∈ finalization env ss -> tick_of op = None.
Proof.
  unfold finalization. rewrite !elem_of_cons, elem_of_nil.
  intuition (subst; reflexivity).
Qed.

(** Every operation of a tick belongs to a tick the loop entered. *)
Lemma main_log_tick (env : Env) (op : Op) (i : nat) :
  op ∈ log (snd (main env)) -> tick_of op = Some i ->
  (i < completed env /\ op ∈ block env i)
  \/ (i = completed env /\ ending env <> Exhausted
      /\ op ∈ loop_tail env (completed env) (ending env)).
Proof.
  rewrite main_log_elem. intros [(j & Hj & Hop)|[Hop|[_ Hop]]] Ht.
  - left. apply block_tick in Hop as Hj'. rewrite Ht in Hj'. by simplify_eq.
  - right. apply tail_tick in Hop as Hk. destruct Hk as [Hk Hne].
    rewrite Ht in Hk. by simplify_eq.
  - apply finalization_tick in Hop. congruence.
Qed.

Lemma ticks_entered_blocks (env : Env) (a k : nat) :
  ticks_entered (flat_map (block env) (seq a k)) = k.
Proof.
  unfold ticks_entered. revert a. induction k as [|k IH]; intros a; simpl; [done|].
  rewrite filter_app, length_app, IH.
  unfold block. destruct (grabbed (ticks env a)); reflexivity.
Qed.

Lemma ticks_entered_main (env : Env) :
  ticks_entered (log (snd (main env))) =
    completed env + match ending env with Exhausted => 0 | _ => 1 end.
Proof.
  rewrite main_closed. cbn [snd log]. unfold ticks_entered.
  rewrite !filter_app, !length_app.
  fold (ticks_entered (flat_map (block env) (seq 0 (completed env)))).
  rewrite ticks_entered_blocks.
  destruct (ending env); simpl; try lia.
  unfold block. destruct (grabbed _); simpl; lia.
Qed.

(** ** Step indices (C4) *)

Lemma appended_app (l1 l2 : list Op) :
  appended (l1 ++ l2) = appended l1 ++ appended l2.
Proof. apply omap_app. Qed.

Lemma appended_blocks (env : Env) (a k : nat) :
  (forall i, a <= i < a + k -> exists obs, grabbed (ticks env i) = Some obs) ->
  appended (flat_map (block env) (seq a k)) = map (record_of env) (seq a k).
Proof.
  revert a. induction k as [|k IH]; intros a Hg; simpl; [done|].
  rewrite appended_app, IH by (intros i Hi; apply Hg; lia).
  destruct (Hg a ltac:(lia)) as [obs Hobs]. unfold block. rewrite Hobs. reflexivity.
Qed.

Lemma appended_tail (env : Env) (k : nat) (e : Ending) :
  (e = Crashed -> grabbed (ticks env k) = None) ->
  appended (loop_tail env k e) = [].
Proof.
  destruct e; simpl; try done. intros Hg. unfold block. by rewrite Hg.
Qed.

Lemma ending_crashed (env : Env) :
  ending env = Crashed ->
  stop_flag (shared (world_at_check env (completed env))) = false /\
  grabbed (ticks env (completed env)) = None.
Proof. intros He. by apply (outcome_crashed env N_STEPS_MAX 0). Qed.

Lemma ending_stopped (env : Env) :
  ending env = Stopped ->
  stop_flag (shared (world_at_check env (completed env))) = true.
Proof. intros He. by apply (outcome_stopped env N_STEPS_MAX 0). Qed.

Lemma main_appended (env : Env) :
  appended (log (snd (main env))) = steps (snd (main env)).
Proof.
  rewrite main_closed. cbn [snd log steps].
  rewrite !appended_app, appended_blocks, appended_tail.
  - destruct (ending env); simpl; by rewrite app_nil_r.
  - intros He. by apply ending_crashed.
  - intros i Hi. apply completed_grabbed. lia.
Qed.

(** A tick whose grab failed is the one that ended the loop. *)
Lemma grab_failed_inv (env : Env) (i : nat) :
  Grab i false ∈ log (snd (main env)) ->
  i = completed env /\ ending env = Crashed.
Proof.
  intros Hin. destruct (main_log_tick env _ i Hin eq_refl) as [[Hi Hb]|(-> & Hne & Hb)].
  - destruct (completed_grabbed env i Hi) as [obs Hobs].
    unfold block in Hb. rewrite Hobs in Hb.
    rewrite !elem_of_cons, elem_of_nil in Hb.
    exfalso. intuition discriminate.
  - split; [done|]. destruct (ending env); simpl in Hb; try done.
    apply list_elem_of_singleton in Hb. discriminate.
Qed.

(** C4. The [t] fields of the records of a run are [0, 1, 2, ...] in
    order: they start at 0 and each is one more than the one before.  The
    records are exactly those the loop appended, every one of them belongs
    to a tick whose grab gave a frame, and a tick whose grab failed has no
    record at all. *)
Theorem step_index_sequence (env : Env) :
  map t (steps (snd (main env))) = seq 0 (length (steps (snd (main env))))
  /\ appended (log (snd (main env))) = steps (snd (main env))
  /\ (forall i r, steps (snd (main env)) !! i = Some r ->
        t r = i /\ exists obs, grabbed (ticks env i) = Some obs)
  /\ (forall i, Grab i false ∈ log (snd (main env)) ->
        forall r, r ∈ steps (snd (main env)) -> t r <> i).
Proof.
  split; [|split; [|split]].
  - rewrite main_steps, map_map, length_map, length_seq. simpl. apply map_id.
  - apply main_appended.
  - intros i r Hr. apply main_steps_lookup in Hr as [Hi ->]. split; [done|].
    by apply completed_grabbed.
  - intros i Hi r Hr. apply grab_failed_inv in Hi as [-> _].
    apply main_steps_elem in Hr as (j & Hj & ->). simpl. lia.
Qed.

Lemma step_index_sequence_witness :
  t step1_stop = 1 /\ t step0_grab_fails <> 1.
Proof.
  split.
  - apply (proj1 (proj2 (proj2 (step_index_sequence env_stop))) 1 step1_stop).
    vm_compute. reflexivity.
  - apply (proj2 (proj2 (proj2 (step_index_sequence env_grab_fails))) 1).
    + in_list.
    + in_list.
Defined.

(** ** A failing grab (C2) *)

(** C2, as stated, fails: when the second grab raises, the exception leaves
    [main]; the run does not reach the third tick. *)
Lemma failed_grab_aborts_run : ~ failed_grab_skipped env_grab_fails.
Proof.
  intros Hskip. destruct (Hskip 1) as (_ & _ & Hok & _).
  - in_list.
  - vm_compute in Hok. discriminate.
Qed.

(** C2, amended.  A tick whose grab fails persists no frame and appends no
    record; the exception propagates out of the loop, so that tick is the
    last one, [main] ends by the exception, and no manifest is written. *)
Theorem failed_grab_ends_run (env : Env) (i : nat) :
  Grab i false ∈ log (snd (main env)) ->
    (forall path obs q, WriteFrame i path obs q ∉ log (snd (main env)))
    /\ (forall r, r ∈ steps (snd (main env)) -> t r < i)
    /\ fst (main env) = Raise ScreenShotError
    /\ (forall op j, op ∈ log (snd (main env)) -> tick_of op = Some j -> j <= i)
    /\ (forall op, op ∈ log (snd (main env)) -> is_dump op = false)
    /\ exists lg, log (snd (main env)) = lg ++ [ReadStop i false; Grab i false].
Proof.
  intros Hin. destruct (grab_failed_inv env i Hin) as [-> He].
  destruct (ending_crashed env He) as [Hs Hg].
  assert (Htail : loop_tail env (completed env) (ending env)
                  = [ReadStop (completed env) false; Grab (completed env) false]).
  { rewrite He. simpl. unfold block. by rewrite Hg. }
  split; [|split; [|split; [|split; [|split]]]].
  - intros path obs q Hw.
    destruct (main_log_tick env _ _ Hw eq_refl) as [[Hlt _]|(_ & _ & Hb)]; [lia|].
    rewrite Htail in Hb. rewrite !elem_of_cons, elem_of_nil in Hb.
    intuition discriminate.
  - intros r Hr. apply main_steps_elem in Hr as (j & Hj & ->). done.
  - rewrite main_closed, He. reflexivity.
  - intros op j Hop Hj.
    destruct (main_log_tick env _ _ Hop Hj) as [[Hlt _]|(-> & _)]; lia.
  - intros op Hop. apply main_log_elem in Hop as [(j & Hj & Hb)|[Hb|[Hne _]]].
    + apply block_tick in Hb. by destruct op.
    + apply tail_tick in Hb as [Hb _]. by destruct op.
    + congruence.
  - exists (flat_map (block env) (seq 0 (completed env))).
    rewrite main_closed. cbn [snd log]. rewrite Htail, He, app_nil_r. reflexivity.
Qed.

Lemma failed_grab_ends_run_witness :
  fst (main env_grab_fails) = Raise ScreenShotError.
Proof.
  apply (proj1 (proj2 (proj2 (failed_grab_ends_run env_grab_fails 1 ltac:(in_list))))).
Defined.

(** ** Termination and the step cap (C6) *)

Lemma read_stop_true_inv (env : Env) (i : nat) :
  ReadStop i true ∈ log (snd (main env)) ->
  i = completed env /\ ending env = Stopped.
Proof.
  intros Hin. destruct (main_log_tick env _ i Hin eq_refl) as [[Hi Hb]|(-> & Hne & Hb)].
  - unfold block in Hb. destruct (grabbed (ticks env i));
      rewrite !elem_of_cons, elem_of_nil in Hb; exfalso; intuition discriminate.
  - split; [done|]. destruct (ending env); simpl in Hb; try done.
    unfold block in Hb. destruct (grabbed _);
      rewrite !elem_of_cons, elem_of_nil in Hb; exfalso; intuition discriminate.
Qed.

Lemma ending_bound (env : Env) :
  completed env + match ending env with Exhausted => 0 | _ => 1 end <= N_STEPS_MAX.
Proof.
  destruct (ending env) eqn:He.
  - pose proof (completed_le env). lia.
  - pose proof (outcome_not_exhausted env N_STEPS_MAX 0) as Hlt.
    fold (ending env) (completed env) in Hlt. rewrite He in Hlt.
    specialize (Hlt ltac:(done)). lia.
  - pose proof (outcome_not_exhausted env N_STEPS_MAX 0) as Hlt.
    fold (ending env) (completed env) in Hlt. rewrite He in Hlt.
    specialize (Hlt ltac:(done)). lia.
Qed.

(** C6. [main] is a total function of its environment.  The loop enters at
    most [N_STEPS_MAX] ticks, all with an index below the cap, and leaves at
    most that many records.  A tick that reads the stop flag set is the last
    one: the loop entered exactly the ticks up to it, every earlier tick left
    its record, and nothing of that tick but the check is performed.  A run
    in which neither the flag is seen set nor the grab raises enters exactly
    [N_STEPS_MAX] ticks. *)
Theorem loop_terminates_bounded (env : Env) :
  (exists res st, main env = (res, st))
  /\ ticks_entered (log (snd (main env))) <= N_STEPS_MAX
  /\ length (steps (snd (main env))) <= N_STEPS_MAX
  /\ (forall op i, op ∈ log (snd (main env)) -> tick_of op = Some i -> i < N_STEPS_MAX)
  /\ (forall i, ReadStop i true ∈ log (snd (main env)) ->
        ticks_entered (log (snd (main env))) = S i
        /\ length (steps (snd (main env))) = i
        /\ fst (main env) = Ok ()
        /\ forall op j, op ∈ log (snd (main env)) -> tick_of op = Some j ->
             j < i \/ op = ReadStop i true)
  /\ ((forall i, ReadStop i true ∉ log (snd (main env))) ->
      fst (main env) = Ok () ->
      ticks_entered (log (snd (main env))) = N_STEPS_MAX
      /\ length (steps (snd (main env))) = N_STEPS_MAX).
Proof.
  pose proof (ending_bound env) as Hb.
  split; [|split; [|split; [|split; [|split]]]].
  - destruct (main env) as [res st]. eauto.
  - rewrite ticks_entered_main. done.
  - rewrite main_steps, length_map, length_seq. apply completed_le.
  - intros op i Hop Hi.
    destruct (main_log_tick env _ _ Hop Hi) as [[Hlt _]|(-> & Hne & _)].
    + pose proof (completed_le env). lia.
    + destruct (ending env); [done|lia|lia].
  - intros i Hin. destruct (read_stop_true_inv env i Hin) as [-> He].
    rewrite ticks_entered_main, main_steps, length_map, length_seq, He.
    split; [lia|]. split; [done|]. split.
    { rewrite main_closed, He. reflexivity. }
    intros op j Hop Hj.
    destruct (main_log_tick env _ _ Hop Hj) as [[Hlt _]|(-> & _ & Hop')]; [by left|].
    right. rewrite He in Hop'. simpl in Hop'. by apply list_elem_of_singleton in Hop'.
  - intros Hnostop Hok.
    rewrite ticks_entered_main, main_steps, length_map, length_seq.
    destruct (ending env) eqn:He.
    + pose proof (outcome_exhausted env N_STEPS_MAX 0) as Hx.
      fold (ending env) (completed env) in Hx. rewrite (Hx He). lia.
    + exfalso. apply (Hnostop (completed env)).
      apply main_log_elem. right; left. rewrite He. simpl.
      by apply list_elem_of_singleton.
    + rewrite main_closed, He in Hok. discriminate.
Qed.

Lemma loop_terminates_bounded_witness :
  ticks_entered (log (snd (main env_stop))) = 3
  /\ length (steps (snd (main env_stop))) = 2.
Proof.
  pose proof (proj1 (proj2 (proj2 (proj2 (proj2 (loop_terminates_bounded env_stop))))) 2
                ltac:(in_list)) as (H1 & H2 & _).
  split; assumption.
Defined.

(** ** The stop flag (C5) *)

Lemma callback_stop_mono (ev : KeyEvent) (sh sh' : Shared) (r : CallbackRet) :
  callback ev sh = Ok (sh', r) -> stop_flag sh = true -> stop_flag sh' = true.
Proof.
  destruct ev as [key|key]; simpl.
  - unfold on_press. destruct (key_to_name_total key) as [[name|] ->]; simpl.
    + destruct (decide (name = "esc")); by intros [= <- <-].
    + by intros [= <- <-].
  - unfold on_release. destruct (key_to_name_total key) as [[name|] ->]; simpl;
      by intros [= <- <-].
Qed.

Lemma deliver_stop_mono (w : World) (ev : KeyEvent) :
  stop_flag (shared w) = true -> stop_flag (shared (deliver w ev)) = true.
Proof.
  intros Hw. unfold deliver. destruct (listening w); [|done].
  destruct (callback ev (shared w)) as [[sh' []]|e] eqn:E; simpl; try done;
    eapply callback_stop_mono; eauto.
Qed.

Lemma deliver_all_stop_mono (evs : list KeyEvent) (w : World) :
  stop_flag (shared w) = true -> stop_flag (shared (deliver_all evs w)) = true.
Proof.
  unfold deliver_all. revert w.
  induction evs as [|ev evs IH]; intros w Hw; simpl; [done|].
  apply IH. by apply deliver_stop_mono.
Qed.

Lemma outcome_stop_at (env : Env) (n a j : nat) :
  a <= j < a + n ->
  (forall i, a <= i < j ->
     stop_flag (shared (world_at_check env i)) = false
     /\ exists obs, grabbed (ticks env i) = Some obs) ->
  stop_flag (shared (world_at_check env j)) = true ->
  outcome env a n = (j - a, Stopped).
Proof.
  revert a. induction n as [|n IH]; intros a Hj Hbefore Hstop; [lia|].
  simpl. destruct (decide (a = j)) as [->|Hne].
  - rewrite Hstop. by rewrite Nat.sub_diag.
  - destruct (Hbefore a ltac:(lia)) as [-> [obs ->]].
    rewrite (IH (S a)); [|lia| |done].
    + f_equal. lia.
    + intros i Hi. apply Hbefore. lia.
Qed.

Lemma reads_of_app (i : nat) (l1 l2 : list Op) :
  reads_of i (l1 ++ l2) = reads_of i l1 + reads_of i l2.
Proof. unfold reads_of. by rewrite filter_app, length_app. Qed.

Lemma reads_of_block (env : Env) (i j : nat) :
  reads_of i (block env j) = if decide (i = j) then 1 else 0.
Proof.
  unfold reads_of, block.
  rewrite filter_cons. destruct (decide _) as [[_ [= ->]]|Hn].
  - rewrite decide_True by done. simpl. f_equal.
    destruct (grabbed _); repeat (rewrite filter_cons_False by (simpl; intros [? ?]; done));
      reflexivity.
  - rewrite decide_False by (intros ->; by apply Hn).
    destruct (grabbed _); repeat (rewrite filter_cons_False by (simpl; intros [? ?]; done));
      reflexivity.
Qed.

Lemma reads_of_blocks (env : Env) (i a k : nat) :
  reads_of i (flat_map (block env) (seq a k)) = if decide (a <= i < a + k) then 1 else 0.
Proof.
  revert a. induction k as [|k IH]; intros a; cbn [seq flat_map].
  - rewrite decide_False by lia. reflexivity.
  - rewrite reads_of_app, IH, reads_of_block.
    repeat case_decide; lia.
Qed.

Lemma reads_of_none (i : nat) (lg : list Op) :
  (forall op, op ∈ lg -> tick_of op <> Some i) -> reads_of i lg = 0.
Proof.
  intros Hlg. unfold reads_of. induction lg as [|op lg IH]; [done|].
  rewrite filter_cons_False.
  - apply IH. intros op' Hop'. apply Hlg. by right.
  - intros [_ Ht]. apply (Hlg op); [by left|done].
Qed.

Lemma reads_of_main (env : Env) (i : nat) :
  reads_of i (log (snd (main env))) =
    if decide (i < ticks_entered (log (snd (main env)))) then 1 else 0.
Proof.
  rewrite ticks_entered_main. rewrite main_closed. cbn [snd log].
  rewrite !reads_of_app, reads_of_blocks.
  assert (Hfin : reads_of i match ending env with
                            | Crashed => []
                            | _ => finalization env (map (record_of env) (seq 0 (completed env)))
                            end = 0).
  { apply reads_of_none. intros op Hop.
    destruct (ending env); try (apply finalization_tick in Hop; congruence).
    by apply elem_of_nil in Hop. }
  rewrite Hfin. destruct (ending env) eqn:He; simpl.
  - unfold reads_of. simpl. repeat case_decide; lia.
  - unfold reads_of. rewrite filter_cons, filter_nil. simpl.
    destruct (decide (true = true /\ Some (completed env) = Some i)) as [[_ [= <-]]|Hn];
      simpl.
    + rewrite decide_False, decide_True by lia. reflexivity.
    + assert (i <> completed env) by (intros ->; by apply Hn).
      repeat case_decide; lia.
  - rewrite reads_of_block. repeat case_decide; lia.
Qed.

Lemma block_completed (env : Env) (i : nat) :
  i < completed env ->
  exists obs, grabbed (ticks env i) = Some obs /\
    block env i =
      [ReadStop i false; Grab i true; Snapshot i (held_at env i);
       WriteFrame i (frame_path (run_id env) i) obs JPEG_QUALITY;
       Append i (record_of env i); Sleep i].
Proof.
  intros Hi. destruct (completed_grabbed env i Hi) as [obs Hobs].
  exists obs. split; [done|]. unfold block. by rewrite Hobs.
Qed.

Lemma stop_seen_at_next_check (env : Env) (i : nat) :
  i < completed env ->
  stop_flag (shared (after_snapshot env i (world_before env i))) = true ->
  S i < N_STEPS_MAX ->
  completed env = S i /\ ending env = Stopped.
Proof.
  intros Hi Hstop Hcap.
  assert (Ho : outcome env 0 N_STEPS_MAX = (S i - 0, Stopped)).
  { apply outcome_stop_at; [lia| |].
    - intros j Hj. apply (outcome_completed env N_STEPS_MAX 0 j).
      fold (completed env). lia.
    - unfold world_at_check, after_check. simpl world_before.
      by apply deliver_all_stop_mono. }
  unfold completed, ending. rewrite Ho. simpl. done.
Qed.

(** C5, as stated, fails: when the second grab raises, the second tick has
    read the stop flag clear and started, but it writes no frame and
    appends no record. *)
Lemma started_tick_abandoned : ~ started_tick_completes env_grab_fails.
Proof.
  intros Hall. destruct (Hall 1) as (_ & (path & obs & q & Hw) & _).
  - in_list.
  - apply list_elem_of_In in Hw. vm_compute in Hw.
    repeat (destruct Hw as [Hw|Hw]; [discriminate Hw|]). exact Hw.
Qed.

(** C5, amended.  The log of a run is a sequence of blocks, one per
    completed tick, followed by the way the loop was left.  Each tick the
    loop enters reads the stop flag exactly once, as the first operation of
    its block.  A tick that read the flag clear and got its frame performs
    its whole block -- grab, snapshot, frame write, append, sleep -- and its
    record is in [steps]; this holds also when the flag is set while the
    tick is under way, in which case the flag is acted on at the next tick's
    check.  The stop flag never ends a tick half-way; the only tick that
    starts and does not complete is one whose grab raises, which is the
    last operation of the run. *)
Theorem stop_checked_at_top (env : Env) :
  (exists tail,
     log (snd (main env))
       = flat_map (block env) (seq 0 (length (steps (snd (main env))))) ++ tail
     /\ (tail = finalization env (steps (snd (main env)))
         \/ tail = ReadStop (length (steps (snd (main env)))) true
                     :: finalization env (steps (snd (main env)))
         \/ tail = [ReadStop (length (steps (snd (main env)))) false;
                    Grab (length (steps (snd (main env)))) false]))
  /\ (forall i, reads_of i (log (snd (main env))) =
               if decide (i < ticks_entered (log (snd (main env)))) then 1 else 0)
  /\ (forall i, i < length (steps (snd (main env))) -> exists obs,
        grabbed (ticks env i) = Some obs
        /\ block env i =
             [ReadStop i false; Grab i true; Snapshot i (held_at env i);
              WriteFrame i (frame_path (run_id env) i) obs JPEG_QUALITY;
              Append i (record_of env i); Sleep i]
        /\ steps (snd (main env)) !! i = Some (record_of env i))
  /\ (forall i, i < length (steps (snd (main env))) ->
        stop_flag (shared (after_snapshot env i (world_before env i))) = true ->
        S i < N_STEPS_MAX ->
        length (steps (snd (main env))) = S i
        /\ ReadStop (S i) true ∈ log (snd (main env))
        /\ fst (main env) = Ok ()).
Proof.
  assert (Hlen : length (steps (snd (main env))) = completed env).
  { by rewrite main_steps, length_map, length_seq. }
  rewrite !Hlen.
  split; [|split; [|split]].
  - exists (loop_tail env (completed env) (ending env)
            ++ match ending env with
               | Crashed => []
               | Exhausted | Stopped => finalization env (steps (snd (main env)))
               end).
    split.
    + rewrite main_steps. rewrite main_closed at 1. reflexivity.
    + destruct (ending env) eqn:He; simpl; auto.
      right; right. destruct (ending_crashed env He) as [_ Hg].
      unfold block. by rewrite Hg.
  - apply reads_of_main.
  - intros i Hi. destruct (block_completed env i Hi) as (obs & Hobs & Hb).
    exists obs. split; [done|]. split; [done|]. by apply main_steps_lookup.
  - intros i Hi Hstop Hcap.
    destruct (stop_seen_at_next_check env i Hi Hstop Hcap) as [Hk He].
    split; [done|]. split.
    + apply main_log_elem. right; left. rewrite He, Hk. simpl.
      by apply list_elem_of_singleton.
    + rewrite main_closed, He. reflexivity.
Qed.

Lemma cap_above_2 : 2 < N_STEPS_MAX.
Proof. unfold N_STEPS_MAX. lia. Qed.

Lemma stop_checked_at_top_witness :
  length (steps (snd (main env_stop))) = 2
  /\ ReadStop 2 true ∈ log (snd (main env_stop))
  /\ fst (main env_stop) = Ok ().
Proof.
  apply (proj2 (proj2 (proj2 (stop_checked_at_top env_stop))) 1).
  - vm_compute. lia.
  - vm_compute. reflexivity.
  - exact cap_above_2.
Defined.

(** ** Order on strings, [sorted] *)

Lemma ascii_compare_refl (x : ascii) : Ascii.compare x x = Eq.
Proof. unfold Ascii.compare. apply N.compare_refl. Qed.

Lemma ascii_compare_lt_trans (x y z : ascii) :
  Ascii.compare x y = Lt -> Ascii.compare y z = Lt -> Ascii.compare x z = Lt.
Proof.
  unfold Ascii.compare. rewrite !N.compare_lt_iff. apply N.lt_trans.
Qed.

Lemma str_compare_refl (a : string) : String.compare a a = Eq.
Proof. induction a as [|x a IH]; simpl; [done|]. by rewrite ascii_compare_refl. Qed.

Lemma str_lt_trans (a b c : string) : str_lt a b -> str_lt b c -> str_lt a c.
Proof.
  unfold str_lt. revert b c.
  induction a as [|x a IH]; intros [|y b] [|z c]; simpl; try done.
  destruct (Ascii.compare x y) eqn:Hxy; try done.
  - apply Ascii.compare_eq_iff in Hxy as ->.
    destruct (Ascii.compare y z) eqn:Hyz; try done. apply IH.
  - destruct (Ascii.compare y z) eqn:Hyz; try done.
    + apply Ascii.compare_eq_iff in Hyz as <-. by rewrite Hxy.
    + by rewrite (ascii_compare_lt_trans x y z).
Qed.

Lemma str_lt_irrefl (a : string) : ~ str_lt a a.
Proof. unfold str_lt. by rewrite str_compare_refl. Qed.

Lemma str_le_lt_eq (a b : string) : str_le a b <-> str_lt a b \/ a = b.
Proof.
  unfold str_le, str_lt, String.leb. split.
  - destruct (String.compare a b) eqn:Hc; try done; [|by left].
    right. by apply String.compare_eq_iff.
  - intros [->| ->]; [done|]. by rewrite str_compare_refl.
Qed.

#[global] Instance str_le_total : Total str_le.
Proof. intros a b. apply String.leb_total. Qed.

#[global] Instance str_le_trans : Transitive str_le.
Proof.
  intros a b c. rewrite !str_le_lt_eq.
  intros [Hab| ->] [Hbc| ->]; auto. left. by eapply str_lt_trans.
Qed.

Lemma sorted_elem (H : gset string) (x : string) : x ∈ sorted H <-> x ∈ H.
Proof. unfold sorted. by rewrite merge_sort_Permutation, elem_of_elements. Qed.

Lemma sorted_NoDup (H : gset string) : NoDup (sorted H).
Proof. unfold sorted. rewrite merge_sort_Permutation. apply NoDup_elements. Qed.

Lemma sorted_StronglySorted (H : gset string) : StronglySorted str_le (sorted H).
Proof. apply StronglySorted_merge_sort; apply _. Qed.

(** In [sorted H] every element is strictly below the ones after it. *)
Lemma sorted_strict (H : gset string) : StronglySorted str_lt (sorted H).
Proof.
  pose proof (sorted_NoDup H) as Hnd. pose proof (sorted_StronglySorted H) as Hs.
  induction Hs as [|x l Hs IH Hall]; [constructor|].
  apply NoDup_cons in Hnd as [Hx Hnd]. constructor; [by apply IH|].
  rewrite Forall_forall in Hall |- *. intros y Hy.
  destruct (proj1 (str_le_lt_eq x y) (Hall y Hy)) as [Hlt| ->]; [done|].
  by destruct Hx.
Qed.

(** ** ["esc"] and the held keys (C9) *)

Lemma world_before_no_esc (env : Env) (i : nat) :
  "esc" ∉ held (shared (world_before env i)).
Proof.
  induction i as [|i IH]; simpl.
  - apply not_elem_of_empty.
  - unfold after_snapshot, after_check. by do 2 apply deliver_all_no_esc.
Qed.

Lemma held_at_no_esc (env : Env) (i : nat) : "esc" ∉ held_at env i.
Proof.
  unfold held_at, after_snapshot, after_check.
  do 2 apply deliver_all_no_esc. apply world_before_no_esc.
Qed.

Lemma snapshot_inv (env : Env) (i : nat) (H : gset string) :
  Snapshot i H ∈ log (snd (main env)) -> i < completed env /\ H = held_at env i.
Proof.
  intros Hin. destruct (main_log_tick env _ i Hin eq_refl) as [[Hi Hb]|(-> & Hne & Hb)].
  - split; [done|]. unfold block in Hb.
    destruct (grabbed (ticks env i)); rewrite !elem_of_cons, elem_of_nil in Hb.
    + destruct Hb as [Hb|[Hb|[Hb|[Hb|[Hb|[Hb|[]]]]]]]; try discriminate. congruence.
    + destruct Hb as [Hb|[Hb|[]]]; discriminate.
  - exfalso. destruct (ending env) eqn:He; simpl in Hb.
    + by apply elem_of_nil in Hb.
    + apply list_elem_of_singleton in Hb. discriminate.
    + destruct (ending_crashed env He) as [_ Hg].
      unfold block in Hb. rewrite Hg in Hb.
      rewrite !elem_of_cons, elem_of_nil in Hb.
      destruct Hb as [Hb|[Hb|[]]]; discriminate.
Qed.

Lemma on_press_esc (key : Key) (sh : Shared) :
  _key_to_name key = Ok (Some "esc") ->
  on_press key sh = Ok (mkShared (held sh) true, RetFalse).
Proof. unfold on_press. intros ->. reflexivity. Qed.

Lemma on_release_esc (key : Key) (sh : Shared) :
  _key_to_name key = Ok (Some "esc") -> "esc" ∉ held sh ->
  on_release key sh = Ok (sh, RetNone).
Proof.
  unfold on_release. intros -> Hesc. simpl. destruct sh as [h s]. simpl in *.
  do 2 f_equal. f_equal. apply set_eq. intros x.
  rewrite elem_of_difference, elem_of_singleton. split.
  - by intros [Hx _].
  - intros Hx. split; [done|]. intros ->. by apply Hesc.
Qed.

Lemma menu_bit (H : gset string) :
  "esc" ∉ H -> (encode H KEYMAP !! 6 = Some 1 <-> "tab" ∈ H).
Proof.
  intros Hesc.
  destruct (encode_bit H KEYMAP 6 "menu" {["esc"; "tab"]} eq_refl) as [H1 _].
  rewrite H1. split.
  - intros Hne. apply set_choose_L in Hne as [x Hx].
    apply elem_of_intersection in Hx as [HxH Hx].
    apply elem_of_union in Hx as [Hx|Hx]; apply elem_of_singleton in Hx; by subst.
  - intros Htab Hempty.
    assert (Hin : "tab" ∈ H ∩ {["esc"; "tab"]}).
    { apply elem_of_intersection. split; [done|].
      apply elem_of_union. right. by apply elem_of_singleton. }
    rewrite Hempty in Hin. by apply not_elem_of_empty in Hin.
Qed.

(** C9.  ["esc"] is never in [held]: a press that normalises to ["esc"]
    sets the stop flag and returns before the [add], and releasing it when
    it is absent changes nothing.  So no snapshot and no [held_keys] field
    of a record contains ["esc"], and the bit of the ["menu"] channel
    (position 6, aliases ["esc"] and ["tab"]) is 1 exactly when ["tab"] is
    among the record's held keys. *)
Theorem esc_never_held (env : Env) :
  (forall key sh, _key_to_name key = Ok (Some "esc") ->
     on_press key sh = Ok (mkShared (held sh) true, RetFalse)
     /\ ("esc" ∉ held sh -> on_release key sh = Ok (sh, RetNone)))
  /\ (forall evs, "esc" ∉ held (shared (deliver_all evs world0)))
  /\ (forall i H, Snapshot i H ∈ log (snd (main env)) -> "esc" ∉ H)
  /\ (KEYMAP !! 6 = Some ("menu", {["esc"; "tab"]}))
  /\ (forall r, r ∈ steps (snd (main env)) ->
        ("esc" ∉ held_keys r)
        /\ (action r !! 6 = Some 1 <-> "tab" ∈ held_keys r)).
Proof.
  split; [|split; [|split; [|split]]].
  - intros key sh Hn. split; [by apply on_press_esc|by apply on_release_esc].
  - intros evs. apply deliver_all_no_esc. apply not_elem_of_empty.
  - intros i H Hin. apply snapshot_inv in Hin as [_ ->]. apply held_at_no_esc.
  - reflexivity.
  - intros r Hr. apply main_steps_elem in Hr as (i & Hi & ->). simpl.
    rewrite !sorted_elem. split; [apply held_at_no_esc|].
    apply menu_bit, held_at_no_esc.
Qed.

Lemma esc_never_held_witness :
  ("esc" ∉ held_keys step1_stop)
  /\ (action step1_stop !! 6 = Some 1 <-> "tab" ∈ held_keys step1_stop).
Proof.
  apply (proj2 (proj2 (proj2 (proj2 (esc_never_held env_stop)))) step1_stop).
  in_list.
Defined.

(** ** Consistency of a record (C10) *)

(** C10.  Every record of a run comes from one snapshot [H] of [held], the
    only one taken in its tick: [held_keys] is [sorted H] -- the elements of
    [H], each once, in increasing order -- and [action] is [encode H KEYMAP],
    so that its bit [i] is 1 exactly when one of the record's held keys is
    an alias of the [i]-th keymap entry. *)
Theorem record_consistent (env : Env) (r : StepRecord) :
  r ∈ steps (snd (main env)) ->
  exists H,
    Snapshot (t r) H ∈ log (snd (main env))
    /\ (forall H', Snapshot (t r) H' ∈ log (snd (main env)) -> H' = H)
    /\ held_keys r = sorted H
    /\ action r = encode H KEYMAP
    /\ (forall x, x ∈ held_keys r <-> x ∈ H)
    /\ NoDup (held_keys r)
    /\ StronglySorted str_lt (held_keys r)
    /\ length (action r) = length KEYMAP
    /\ forall i name aliases, KEYMAP !! i = Some (name, aliases) ->
         (action r !! i = Some 1 <-> exists a, a ∈ held_keys r /\ a ∈ aliases)
         /\ (action r !! i = Some 0 <-> ~ exists a, a ∈ held_keys r /\ a ∈ aliases)
         /\ (action r !! i = Some 1 \/ action r !! i = Some 0).
Proof.
  intros Hr. apply main_steps_elem in Hr as (j & Hj & ->). simpl.
  exists (held_at env j).
  pose proof (encode_length (held_at env j) KEYMAP) as Hlen.
  split; [|split; [|split; [|split; [|split; [|split; [|split; [|split]]]]]]].
  - apply main_log_elem. left. exists j. split; [done|].
    destruct (block_completed env j Hj) as (obs & _ & ->).
    rewrite !elem_of_cons. auto.
  - intros H' Hin. by apply snapshot_inv in Hin as [_ ->].
  - reflexivity.
  - reflexivity.
  - apply sorted_elem.
  - apply sorted_NoDup.
  - apply sorted_strict.
  - exact Hlen.
  - intros i name aliases Hi.
    destruct (encode_bit (held_at env j) KEYMAP i name aliases Hi) as [H1 H0].
    assert (H01 : encode (held_at env j) KEYMAP !! i = Some 1
                  \/ encode (held_at env j) KEYMAP !! i = Some 0).
    { destruct (decide (held_at env j ∩ aliases = ∅)) as [He|Hne'].
      - right. by apply H0.
      - left. by apply H1. }
    assert (Hmeet : held_at env j ∩ aliases ≠ ∅ <->
                    exists a, a ∈ sorted (held_at env j) /\ a ∈ aliases).
    { split.
      - intros Hne. apply set_choose_L in Hne as [a Ha].
        apply elem_of_intersection in Ha as [Ha1 Ha2].
        exists a. by rewrite sorted_elem.
      - intros (a & Ha1 & Ha2) Hempty. rewrite sorted_elem in Ha1.
        assert (Hin : a ∈ held_at env j ∩ aliases) by by apply elem_of_intersection.
        rewrite Hempty in Hin. by apply not_elem_of_empty in Hin. }
    split; [by rewrite H1|]. split; [|done].
    rewrite H0, <- Hmeet. split; [intros -> ?; done|apply dec_stable].
Qed.

Lemma record_consistent_witness :
  exists H, held_keys step1_stop = sorted H /\ action step1_stop = encode H KEYMAP.
Proof.
  destruct (record_consistent env_stop step1_stop ltac:(in_list))
    as (H & _ & _ & Hk & Ha & _).
  exists H. split; assumption.
Defined.

(** ** Frame file names (C8) *)

Lemma N_range_elem (k : nat) (start i : N) :
  (start <= i < start + N.of_nat k)%N -> i ∈ N_range k start.
Proof.
  revert start. induction k as [|k IH]; intros start Hi; [lia|]. simpl.
  destruct (decide (i = start)) as [->|Hne]; [by left|].
  right. apply IH. lia.
Qed.

Lemma names_checked : forallb name_ok (N_range N_STEPS_MAX 0) = true.
Proof. vm_compute. reflexivity. Qed.

Lemma name_ok_below_cap (i : nat) : i < N_STEPS_MAX -> name_ok (N.of_nat i) = true.
Proof.
  intros Hi. pose proof names_checked as Hall.
  rewrite forallb_forall in Hall. apply Hall.
  apply list_elem_of_In, N_range_elem. lia.
Qed.

Lemma frame_name_succ (i : nat) :
  i < N_STEPS_MAX -> str_lt (frame_name i) (frame_name (S i)).
Proof.
  intros Hi. pose proof (name_ok_below_cap i Hi) as Hok.
  unfold name_ok in Hok. rewrite !andb_true_iff in Hok.
  destruct Hok as [[[Hlt _] _] _].
  unfold frame_name, fmt_05d, str_nat. rewrite Nat2N.inj_succ.
  unfold String.ltb in Hlt. unfold str_lt.
  by destruct (String.compare _ _).
Qed.

Lemma frame_name_lt (i j : nat) :
  i < j -> j <= N_STEPS_MAX -> str_lt (frame_name i) (frame_name j).
Proof.
  intros Hij Hj. induction j as [|j IH]; [lia|].
  destruct (decide (i = j)) as [->|Hne].
  - apply frame_name_succ. lia.
  - eapply str_lt_trans; [apply IH; lia|]. apply frame_name_succ. lia.
Qed.

Lemma frame_number_name (i : nat) :
  i < N_STEPS_MAX -> frame_number (frame_name i) = Some i.
Proof.
  intros Hi. pose proof (name_ok_below_cap i Hi) as Hok.
  unfold name_ok in Hok. rewrite !andb_true_iff in Hok.
  destruct Hok as [[[_ Hnum] Hstem] Hlen].
  apply bool_decide_eq_true in Hnum, Hstem. apply Nat.eqb_eq in Hlen.
  unfold frame_number, frame_name, fmt_05d, str_nat.
  rewrite Hstem in Hnum |- *.
  destruct (zfill 5 (str_int (N.of_nat i))) eqn:E; [done|].
  rewrite Hnum. simpl. by rewrite Nat2N.id.
Qed.

Lemma fmt_05d_length (i : nat) : i < N_STEPS_MAX -> String.length (fmt_05d i) = 5.
Proof.
  intros Hi. pose proof (name_ok_below_cap i Hi) as Hok.
  unfold name_ok in Hok. rewrite !andb_true_iff in Hok.
  destruct Hok as [_ Hlen]. by apply Nat.eqb_eq in Hlen.
Qed.

(** Comparison goes through a common prefix. *)
Lemma app_cons_str (c : ascii) (a b : string) :
  String c a +:+ b = String c (a +:+ b).
Proof. reflexivity. Qed.

Lemma app_nil_str (b : string) : "" +:+ b = b.
Proof. reflexivity. Qed.

Lemma str_lt_prefix (p a b : string) : str_lt a b -> str_lt (p +:+ a) (p +:+ b).
Proof.
  unfold str_lt. intros Hab. induction p as [|c p IH].
  - by rewrite !app_nil_str.
  - rewrite !app_cons_str. simpl. by rewrite ascii_compare_refl.
Qed.

Lemma app_assoc_str (a b c : string) : (a +:+ b) +:+ c = a +:+ (b +:+ c).
Proof.
  induction a as [|x a IH]; [done|]. rewrite !app_cons_str. by rewrite IH.
Qed.

(** Resolving the stored reference against the run directory gives the
    path the frame was written to. *)
Lemma frame_ref_resolves (run_id : string) (i : nat) :
  path_join (out_dir run_id) (frame_ref i) = frame_path run_id i.
Proof.
  unfold frame_path, frames_dir, frame_ref, path_join.
  rewrite !app_assoc_str. reflexivity.
Qed.

Lemma write_frame_inv (env : Env) (i : nat) (path : string) (obs : Image) (q : nat) :
  WriteFrame i path obs q ∈ log (snd (main env)) ->
  i < completed env /\ path = frame_path (run_id env) i
  /\ grabbed (ticks env i) = Some obs /\ q = JPEG_QUALITY.
Proof.
  intros Hin. destruct (main_log_tick env _ i Hin eq_refl) as [[Hi Hb]|(-> & Hne & Hb)].
  - split; [done|]. destruct (block_completed env i Hi) as (obs' & Hobs & Hblock).
    rewrite Hblock in Hb. rewrite !elem_of_cons, elem_of_nil in Hb.
    destruct Hb as [Hb|[Hb|[Hb|[Hb|[Hb|[Hb|[]]]]]]]; try discriminate.
    injection Hb as -> -> ->. done.
  - exfalso. destruct (ending env) eqn:He; simpl in Hb.
    + by apply elem_of_nil in Hb.
    + apply list_elem_of_singleton in Hb. discriminate.
    + destruct (ending_crashed env He) as [_ Hg].
      unfold block in Hb. rewrite Hg in Hb.
      rewrite !elem_of_cons, elem_of_nil in Hb.
      destruct Hb as [Hb|[Hb|[]]]; discriminate.
Qed.

(** C8.  A frame persisted by tick [i] is written to
    [frames/<i as five zero-filled digits>.jpg] under the run directory.
    For indices [i < j] below the step cap the name of [i] is smaller than
    the name of [j] as a string (and so are the full paths), and the names
    read back as [i] and [j], so the numeric order is the same.  The
    reference stored in a record, resolved against the run directory, is the
    path its frame was written to. *)
Theorem frame_names_ordered (env : Env) :
  (forall i path obs q, WriteFrame i path obs q ∈ log (snd (main env)) ->
     path = path_join (frames_dir (run_id env)) (frame_name i)
     /\ frame_name i = fmt_05d i +:+ ".jpg"
     /\ String.length (fmt_05d i) = 5
     /\ frame_number (frame_name i) = Some i)
  /\ (forall i j, i < j -> j < N_STEPS_MAX ->
        str_lt (frame_name i) (frame_name j)
        /\ str_lt (frame_path (run_id env) i) (frame_path (run_id env) j)
        /\ frame_number (frame_name i) = Some i
        /\ frame_number (frame_name j) = Some j)
  /\ (forall r, r ∈ steps (snd (main env)) ->
        exists obs q,
          WriteFrame (t r) (path_join (out_dir (run_id env)) (frame r)) obs q
            ∈ log (snd (main env))).
Proof.
  split; [|split].
  - intros i path obs q Hin. apply write_frame_inv in Hin as (Hi & -> & _ & _).
    pose proof (completed_le env).
    split; [done|]. split; [done|].
    split; [apply fmt_05d_length; lia|apply frame_number_name; lia].
  - intros i j Hij Hj.
    assert (Hlt : str_lt (frame_name i) (frame_name j)) by (apply frame_name_lt; lia).
    split; [done|]. split; [by apply str_lt_prefix|].
    split; apply frame_number_name; lia.
  - intros r Hr. apply main_steps_elem in Hr as (i & Hi & ->). simpl.
    destruct (block_completed env i Hi) as (obs & Hobs & Hblock).
    exists obs, JPEG_QUALITY. rewrite frame_ref_resolves.
    apply main_log_elem. left. exists i. split; [done|].
    rewrite Hblock, !elem_of_cons. auto.
Qed.

Lemma frame_names_ordered_witness :
  str_lt (frame_name 9) (frame_name 10)
  /\ str_lt (frame_path "20260225_142233" 9) (frame_path "20260225_142233" 10)
  /\ frame_number (frame_name 9) = Some 9
  /\ frame_number (frame_name 10) = Some 10.
Proof.
  apply (proj1 (proj2 (frame_names_ordered env_stop)) 9 10).
  - lia.
  - unfold N_STEPS_MAX. lia.
Defined.

(** ** The document is closed only at its end (towards C3) *)

Lemma scan_app (st : nat * Mode) (a b : string) :
  scan st (a +:+ b) = match scan st a with Some st' => scan st' b | None => None end.
Proof.
  revert st. induction a as [|c a IH]; intros st; [done|].
  rewrite app_cons_str. cbn [scan]. destruct (scan_char st c); [apply IH|done].
Qed.



Lemma balanced_nil : balanced "".
Proof. intros d. reflexivity. Qed.

Lemma balanced_app (a b : string) : balanced a -> balanced b -> balanced (a +:+ b).
Proof. intros Ha Hb d. by rewrite scan_app, Ha, Hb. Qed.


Lemma balanced_brackets (s : string) : balanced s -> balanced ("[" +:+ s +:+ "]").
Proof.
  intros Hs d. rewrite app_cons_str, app_nil_str. simpl. by rewrite scan_app, Hs.
Qed.

Lemma all_inert_app (a b : string) :
  all_inert (a +:+ b) = all_inert a && all_inert b.
Proof.
  induction a as [|c a IH]; [done|]. rewrite app_cons_str. simpl.
  by rewrite IH, andb_assoc.
Qed.

Lemma all_inert_balanced (s : string) : all_inert s = true -> balanced s.
Proof.
  intros Hs d. induction s as [|c s IH]; [done|]. simpl in *.
  apply andb_true_iff in Hs as [Hc Hs]. unfold inert in Hc.
  rewrite !andb_true_iff, !negb_true_iff in Hc. destruct Hc as [[-> ->] ->].
  by apply IH.
Qed.

Lemma digit_inert (r : N) : (r < 10)%N -> inert (digit r) = true.
Proof.
  intros Hr.
  assert (Hall : forallb (fun r => inert (digit r)) (N_range 10 0) = true) by reflexivity.
  rewrite forallb_forall in Hall. apply Hall.
  apply list_elem_of_In, N_range_elem. lia.
Qed.

Lemma str_int_aux_inert (fuel : nat) (n : N) (acc : string) :
  all_inert acc = true -> all_inert (str_int_aux fuel n acc) = true.
Proof.
  revert n acc. induction fuel as [|fuel IH]; intros n acc Hacc; simpl; [done|].
  assert (Hd : all_inert (String (digit (n mod 10)) acc) = true).
  { simpl. rewrite Hacc, digit_inert; [done|]. apply N.mod_lt. lia. }
  destruct (n / 10 =? 0)%N; [done|]. by apply IH.
Qed.

Lemma str_int_inert (n : N) : all_inert (str_int n) = true.
Proof. unfold str_int. by apply str_int_aux_inert. Qed.

Lemma zeros_inert (k : nat) : all_inert (zeros k) = true.
Proof. induction k as [|k IH]; [done|]. simpl. by rewrite IH. Qed.

Lemma zfill_inert (w : nat) (s : string) : all_inert s = true -> all_inert (zfill w s) = true.
Proof. intros Hs. unfold zfill. by rewrite all_inert_app, zeros_inert, Hs. Qed.

Lemma strip_zeros_inert (s : string) :
  all_inert s = true -> all_inert (strip_zeros s) = true.
Proof.
  induction s as [|c s IH]; [done|]. cbn [all_inert strip_zeros].
  intros [Hc Hs]%andb_true_iff. specialize (IH Hs).
  destruct (strip_zeros s) as [|d rest].
  - destruct (Ascii.eqb c "0"); [done|]. cbn [all_inert]. by rewrite Hc.
  - cbn [all_inert] in IH |- *. by rewrite Hc, IH.
Qed.

Lemma fraction_inert (s : string) : all_inert s = true -> all_inert (fraction s) = true.
Proof.
  intros Hs. apply strip_zeros_inert in Hs. unfold fraction.
  by destruct (strip_zeros s).
Qed.

Lemma float_repr_inert (x : Timestamp) : all_inert (float_repr x) = true.
Proof.
  unfold float_repr. rewrite !all_inert_app, str_int_inert, fraction_inert; [done|].
  apply zfill_inert, str_int_inert.
Qed.

Lemma spaces_inert (k : nat) : all_inert (spaces k) = true.
Proof. induction k as [|k IH]; [done|]. simpl. by rewrite IH. Qed.

Lemma newline_indent_inert (level : nat) : all_inert (newline_indent level) = true.
Proof. unfold newline_indent. simpl. apply spaces_inert. Qed.

Lemma item_separator_inert (level : nat) : all_inert (item_separator level) = true.
Proof.
  unfold item_separator. rewrite all_inert_app, newline_indent_inert. reflexivity.
Qed.

(** Inside a string literal every escaped character keeps the scanner
    inside the literal. *)
Lemma scan_escape_char (d : nat) (c : ascii) :
  scan (d, InString) (escape_char c) = Some (d, InString).
Proof. destruct c as [[] [] [] [] [] [] [] []]; reflexivity. Qed.

Lemma scan_escape (d : nat) (s : string) :
  scan (d, InString) (escape s) = Some (d, InString).
Proof.
  induction s as [|c s IH]; [done|]. simpl.
  by rewrite scan_app, scan_escape_char.
Qed.

Lemma json_str_balanced (s : string) : balanced (json_str s).
Proof.
  intros d. unfold json_str. simpl. rewrite scan_app, scan_escape. reflexivity.
Qed.

Lemma concat_balanced (sep : string) (parts : list string) :
  balanced sep -> Forall balanced parts -> balanced (String.concat sep parts).
Proof.
  intros Hsep Hparts. induction Hparts as [|x l Hx Hl IH]; [apply balanced_nil|].
  simpl. destruct l as [|y l]; [done|].
  apply balanced_app; [done|]. apply balanced_app; [done|]. exact IH.
Qed.

Lemma enclosed_balanced (o c : string) (level : nat) (parts : list string) :
  (forall d, scan (d, Outside) o = Some (S d, Outside)) ->
  (forall d, scan (S d, Outside) c = Some (d, Outside)) ->
  Forall balanced parts ->
  balanced (o +:+ newline_indent (S level)
              +:+ String.concat (item_separator (S level)) parts
              +:+ newline_indent level +:+ c).
Proof.
  intros Ho Hc Hparts d.
  assert (Hnl : forall l, balanced (newline_indent l)).
  { intros l. apply all_inert_balanced, newline_indent_inert. }
  assert (Hitems : balanced (String.concat (item_separator (S level)) parts)).
  { apply concat_balanced; [apply all_inert_balanced, item_separator_inert|done]. }
  by rewrite scan_app, Ho, scan_app, Hnl, scan_app, Hitems, scan_app, Hnl, Hc.
Qed.

Lemma dumps_balanced (v : json) : forall level, balanced (dumps level v).
Proof.
  induction v as [n|x|s|items IH|items IH] using json_nested_ind; intros level.
  - apply all_inert_balanced, str_int_inert.
  - apply all_inert_balanced, float_repr_inert.
  - apply json_str_balanced.
  - destruct items as [|v items]; [by intros d|].
    apply (enclosed_balanced "[" "]" level (map (dumps (S level)) (v :: items)));
      [done|done|].
    rewrite Forall_forall in IH. apply Forall_forall. intros x Hx.
    apply list_elem_of_In, in_map_iff in Hx as (y & <- & Hy).
    apply IH. by apply list_elem_of_In.
  - destruct items as [|kv items]; [by intros d|].
    apply (enclosed_balanced "{" "}" level
             (map (fun kv => json_str (fst kv) +:+ ": " +:+ dumps (S level) (snd kv))
                  (kv :: items))); [done|done|].
    rewrite Forall_forall in IH. apply Forall_forall. intros x Hx.
    apply list_elem_of_In, in_map_iff in Hx as (y & <- & Hy).
    apply balanced_app; [apply json_str_balanced|].
    apply balanced_app; [by apply all_inert_balanced|].
    apply IH. by apply list_elem_of_In.
Qed.















Lemma main_ok_log (env : Env) :
  fst (main env) = Ok () ->
  ending env <> Crashed /\
  log (snd (main env)) =
    (flat_map (block env) (seq 0 (completed env)) ++ loop_tail env (completed env) (ending env))
      ++ finalization env (steps (snd (main env))).
Proof.
  intros Hok. rewrite main_steps. rewrite main_closed in Hok |- *. cbn [fst snd log] in *.
  destruct (ending env); [| |discriminate]; by rewrite app_assoc.
Qed.





(** * Further properties of the recorder *)

(** ** The listener *)

Lemma lower_char_idem (c : ascii) : lower_char (lower_char c) = lower_char c.
Proof. apply lower_char_fixed, lower_char_not_upper. Qed.

Lemma lower_idem (s : string) : lower (lower s) = lower s.
Proof. induction s as [|c s IH]; [done|]. simpl. by rewrite lower_char_idem, IH. Qed.

Lemma special_name_lower (key : Key) (n : string) :
  special_name key = Some n -> lower n = n.
Proof.
  unfold special_name. repeat case_decide; intros [= <-]; reflexivity.
Qed.

Lemma key_to_name_lower (key : Key) (n : string) :
  _key_to_name key = Ok (Some n) -> lower n = n.
Proof.
  unfold _key_to_name, char_name. destruct key as [[s|]|k|]; cbn [key_char mbind result_bind].
  - intros [= <-]. apply lower_idem.
  - intros Hn. injection Hn as Hn. by eapply special_name_lower.
  - intros Hn. injection Hn as Hn. by eapply special_name_lower.
  - intros Hn. injection Hn as Hn. by eapply special_name_lower.
Qed.

(** What one event can do to [held]. *)
Lemma deliver_held (w : World) (ev : KeyEvent) (n : string) :
  n ∈ held (shared (deliver w ev)) ->
  n ∈ held (shared w)
  \/ (exists key, ev = Press key /\ _key_to_name key = Ok (Some n) /\ n <> "esc").
Proof.
  unfold deliver. destruct (listening w); [|by left].
  destruct ev as [key|key]; simpl.
  - unfold on_press. destruct (key_to_name_total key) as [[name|] Hk]; rewrite Hk; simpl.
    + destruct (decide (name = "esc")) as [->|Hne]; simpl; [by left|].
      rewrite elem_of_union, elem_of_singleton. intros [->|Hin]; [|by left].
      right. by exists key.
    + by left.
  - unfold on_release. destruct (key_to_name_total key) as [[name|] Hk]; rewrite Hk; simpl.
    + rewrite elem_of_difference. intros [Hin _]. by left.
    + by left.
Qed.

Lemma deliver_all_held (evs : list KeyEvent) (w : World) (n : string) :
  n ∈ held (shared (deliver_all evs w)) ->
  n ∈ held (shared w) \/ (pressed_name n evs /\ n <> "esc").
Proof.
  unfold deliver_all. revert w. induction evs as [|ev evs IH]; intros w; simpl; [by left|].
  intros Hn. destruct (IH _ Hn) as [Hd|[(key & Hin & Hk) Hne]].
  - destruct (deliver_held w ev n Hd) as [|(key & -> & Hk & Hne)]; [by left|].
    right. split; [|done]. exists key. split; [by left|done].
  - right. split; [|done]. exists key. split; [by right|done].
Qed.

Lemma lower_no_capital (s : string) :
  str_forall (fun c => negb (is_upper c)) (lower s) = true.
Proof.
  induction s as [|c s IH]; [done|]. cbn [lower str_forall].
  by rewrite lower_char_not_upper, IH.
Qed.

(** X1.  [held] holds only names of keys whose press the listener has
    handled: every name in it is the name of a pressed key, is not ["esc"],
    and is in lower case -- [lower] leaves it as it is and none of its
    characters is a capital letter, accented or not. *)
Theorem held_only_pressed (evs : list KeyEvent) (n : string) :
  n ∈ held (shared (deliver_all evs world0)) ->
  pressed_name n evs /\ n <> "esc" /\ lower n = n
  /\ str_forall (fun c => negb (is_upper c)) n = true.
Proof.
  intros Hn. destruct (deliver_all_held evs world0 n Hn) as [Hin|[Hp Hne]].
  - by apply not_elem_of_empty in Hin.
  - split; [done|]. split; [done|].
    destruct Hp as (key & _ & Hk).
    assert (lower n = n) as Hl by (by eapply key_to_name_lower).
    split; [done|]. rewrite <- Hl. apply lower_no_capital.
Qed.

Lemma held_only_pressed_witness :
  pressed_name (String "233" "") [Press (KeyCode (Some (String "201" "")))]
  /\ String "233" "" <> "esc" /\ lower (String "233" "") = String "233" ""
  /\ str_forall (fun c => negb (is_upper c)) (String "233" "") = true.
Proof.
  apply (held_only_pressed [Press (KeyCode (Some (String "201" "")))]).
  vm_compute. reflexivity.
Defined.

Lemma callback_ret (ev : KeyEvent) (sh sh' : Shared) (r : CallbackRet) :
  callback ev sh = Ok (sh', r) ->
  (r = RetFalse /\ stop_flag sh' = true
   /\ exists key, ev = Press key /\ _key_to_name key = Ok (Some "esc"))
  \/ (r = RetNone /\ stop_flag sh' = stop_flag sh).
Proof.
  destruct ev as [key|key]; simpl.
  - unfold on_press. destruct (key_to_name_total key) as [[name|] Hk]; rewrite Hk; simpl.
    + destruct (decide (name = "esc")) as [->|Hne]; intros [= <- <-]; simpl.
      * left. split; [done|]. split; [done|]. by exists key.
      * by right.
    + intros [= <- <-]. by right.
  - unfold on_release. destruct (key_to_name_total key) as [[name|] Hk]; rewrite Hk; simpl;
      intros [= <- <-]; by right.
Qed.

Lemma callback_total (ev : KeyEvent) (sh : Shared) :
  exists sh' r, callback ev sh = Ok (sh', r).
Proof. destruct ev; [apply on_press_total|apply on_release_total]. Qed.

Lemma deliver_consistent (w : World) (ev : KeyEvent) :
  listener_consistent w -> listener_consistent (deliver w ev).
Proof.
  unfold listener_consistent, deliver. intros Hw.
  destruct (listening w) eqn:Hl; [|by rewrite Hl].
  destruct (callback_total ev (shared w)) as (sh' & r & Hc). rewrite Hc.
  destruct (callback_ret _ _ _ _ Hc) as [(-> & Hs & _)|[-> Hs]]; simpl.
  - by rewrite Hs.
  - by rewrite Hs, <- Hw.
Qed.

Lemma deliver_all_consistent (evs : list KeyEvent) (w : World) :
  listener_consistent w -> listener_consistent (deliver_all evs w).
Proof.
  unfold deliver_all. revert w. induction evs as [|ev evs IH]; intros w Hw; simpl; [done|].
  apply IH. by apply deliver_consistent.
Qed.

Lemma world0_consistent : listener_consistent world0.
Proof. reflexivity. Qed.

Lemma deliver_stop_source (w : World) (ev : KeyEvent) :
  stop_flag (shared (deliver w ev)) = true ->
  stop_flag (shared w) = true
  \/ exists key, ev = Press key /\ _key_to_name key = Ok (Some "esc").
Proof.
  unfold deliver. destruct (listening w); [|by left].
  destruct (callback_total ev (shared w)) as (sh' & r & Hc). rewrite Hc.
  destruct (callback_ret _ _ _ _ Hc) as [(-> & Hs & Hk)|[-> Hs]]; simpl.
  - by right.
  - rewrite Hs. by left.
Qed.

Lemma deliver_all_stop_source (evs : list KeyEvent) (w : World) :
  stop_flag (shared (deliver_all evs w)) = true ->
  stop_flag (shared w) = true \/ pressed_name "esc" evs.
Proof.
  unfold deliver_all. revert w. induction evs as [|ev evs IH]; intros w; simpl; [by left|].
  intros Hs. destruct (IH _ Hs) as [Hd|(key & Hin & Hk)].
  - destruct (deliver_stop_source w ev Hd) as [|(key & -> & Hk)]; [by left|].
    right. exists key. split; [by left|done].
  - right. exists key. split; [by right|done].
Qed.

Lemma deliver_esc_stops (w : World) (key : Key) :
  listener_consistent w -> _key_to_name key = Ok (Some "esc") ->
  stop_flag (shared (deliver w (Press key))) = true.
Proof.
  unfold listener_consistent, deliver. intros Hw Hk.
  destruct (listening w) eqn:Hl.
  - simpl. rewrite (on_press_esc key _ Hk). reflexivity.
  - symmetry in Hw. by apply negb_false_iff in Hw.
Qed.

Lemma deliver_all_esc_stops (evs : list KeyEvent) (w : World) :
  listener_consistent w -> pressed_name "esc" evs ->
  stop_flag (shared (deliver_all evs w)) = true.
Proof.
  unfold deliver_all. revert w. induction evs as [|ev evs IH]; intros w Hw (key & Hin & Hk).
  - by apply elem_of_nil in Hin.
  - simpl. apply elem_of_cons in Hin as [<-|Hin].
    + apply (deliver_all_stop_mono evs). by apply deliver_esc_stops.
    + apply IH; [by apply deliver_consistent|]. by exists key.
Qed.

Lemma deliver_stopped (w : World) (ev : KeyEvent) :
  listening w = false -> deliver w ev = w.
Proof. unfold deliver. by intros ->. Qed.

Lemma deliver_all_stopped (evs : list KeyEvent) (w : World) :
  listening w = false -> deliver_all evs w = w.
Proof.
  unfold deliver_all. intros Hw. induction evs as [|ev evs IH]; simpl; [done|].
  by rewrite deliver_stopped.
Qed.

(** X2.  The stop flag is set exactly by the press of a key named ["esc"]:
    after any events the callbacks have handled it is set if and only if
    such a key was pressed among them (a release never sets it).  As long
    as only the callbacks act on the listener, it is alive exactly while
    the flag is clear; [main] stops it after the loop, so after a run that
    wrote its manifest the listener has ended also when the flag is still
    clear. *)
Theorem stop_iff_esc_pressed (evs : list KeyEvent) :
  (stop_flag (shared (deliver_all evs world0)) = true <-> pressed_name "esc" evs)
  /\ listening (deliver_all evs world0)
     = negb (stop_flag (shared (deliver_all evs world0)))
  /\ (forall env, fst (main env) = Ok () ->
        listening (world (snd (main env))) = false).
Proof.
  split; [split|split].
  - intros Hs. by destruct (deliver_all_stop_source evs world0 Hs).
  - apply deliver_all_esc_stops, world0_consistent.
  - apply deliver_all_consistent, world0_consistent.
  - intros env. rewrite main_closed. cbn [fst snd world].
    by destruct (ending env).
Qed.

(** X3.  Once the stop flag is set the listener has ended: no later event
    changes the shared state, so a key held when [ESC] is pressed stays in
    [held] even after it is released. *)
Theorem events_after_stop_ignored (before after : list KeyEvent) :
  stop_flag (shared (deliver_all before world0)) = true ->
  deliver_all (before ++ after) world0 = deliver_all before world0.
Proof.
  intros Hs. unfold deliver_all at 1. rewrite foldl_app.
  apply (deliver_all_stopped after).
  pose proof (deliver_all_consistent before world0 world0_consistent) as Hc.
  unfold listener_consistent in Hc. by rewrite Hc, Hs.
Qed.

Lemma events_after_stop_ignored_witness :
  "w" ∈ held (shared (deliver_all ([Press key_w; Press (KeyEnum Key_esc)] ++ [Release key_w])
                                  world0)).
Proof.
  rewrite (events_after_stop_ignored [Press key_w; Press (KeyEnum Key_esc)] [Release key_w]).
  - vm_compute. reflexivity.
  - vm_compute. reflexivity.
Defined.

(** X4.  Press and release meet through the name: a key pressed with any
    character [s] and released as the lower-case character leaves [held]
    without that name, whatever [held] was. *)
Theorem press_release_by_name (w : World) (s : string) :
  listening w = true -> lower s <> "esc" ->
  deliver (deliver w (Press (KeyCode (Some s)))) (Release (KeyCode (Some (lower s))))
  = mkWorld (mkShared (held (shared w) ∖ {[lower s]}) (stop_flag (shared w))) true.
Proof.
  intros Hl Hne. unfold deliver at 2. rewrite Hl. simpl.
  unfold on_press, _key_to_name, char_name. simpl.
  rewrite decide_False by done. unfold deliver. simpl.
  unfold on_release, _key_to_name, char_name. simpl. rewrite lower_idem.
  do 2 f_equal. apply set_eq. intros x.
  rewrite !elem_of_difference, elem_of_union, elem_of_singleton. tauto.
Qed.

Lemma press_release_by_name_witness :
  deliver (deliver world0 (Press (KeyCode (Some (String "201" "")))))
          (Release (KeyCode (Some (String "233" ""))))
  = mkWorld (mkShared (∅ ∖ {[String "233" ""]}) false) true.
Proof.
  apply (press_release_by_name world0 (String "201" "")); [reflexivity|].
  vm_compute. discriminate.
Defined.

(** ** The action encoder, further *)

Lemma any_held_union (H1 H2 aliases : gset string) :
  any_held (H1 ∪ H2) aliases = any_held H1 aliases || any_held H2 aliases.
Proof.
  apply eq_true_iff_eq. rewrite orb_true_iff, !any_held_true. split.
  - intros Hne. apply set_choose_L in Hne as [a Ha].
    apply elem_of_intersection in Ha as [Ha Haa].
    apply elem_of_union in Ha as [Ha|Ha]; [left|right]; intros Hempty;
      (assert (Hin : a ∈ (∅ : gset string));
       [rewrite <- Hempty; by apply elem_of_intersection|by apply not_elem_of_empty in Hin]).
  - intros [Hne|Hne] Hempty; apply Hne; apply set_eq; intros a;
      rewrite elem_of_intersection; split; try (by intros []%not_elem_of_empty);
      intros [Ha Haa]; rewrite <- Hempty; apply elem_of_intersection;
      (split; [apply elem_of_union; auto|done]).
Qed.

Lemma bit_of_union (H1 H2 : gset string) (entry : string * gset string) :
  bit_of (H1 ∪ H2) entry = bit_of H1 entry `max` bit_of H2 entry.
Proof.
  unfold bit_of. rewrite any_held_union.
  by destruct (any_held H1 entry.2), (any_held H2 entry.2).
Qed.

(** X5.  The channels are independent OR-masks: the vector of a union of
    held sets is the position-wise maximum of the two vectors.  So holding
    more keys never clears a bit. *)
Theorem encode_union (H1 H2 : gset string) (K : list (string * gset string)) :
  encode (H1 ∪ H2) K = zip_with Nat.max (encode H1 K) (encode H2 K).
Proof.
  rewrite !encode_map. induction K as [|entry K IH]; [done|].
  simpl. by rewrite IH, bit_of_union.
Qed.

(** X6.  The vector is all zeros exactly when no held key is an alias of
    any channel; in particular for the empty held set and for held keys
    the keymap does not mention. *)
Theorem encode_zero_iff (H : gset string) (K : list (string * gset string)) :
  encode H K = replicate (length K) 0
  <-> forall name aliases, (name, aliases) ∈ K -> H ∩ aliases = ∅.
Proof.
  rewrite encode_map. induction K as [|[name aliases] K IH]; simpl.
  - split; [|done]. intros _ n a Hin. by apply elem_of_nil in Hin.
  - split.
    + intros [= Hbit Hrest] n a Hin. apply elem_of_cons in Hin as [[= -> ->]|Hin].
      * apply any_held_false. unfold bit_of in Hbit. simpl in Hbit.
        by destruct (any_held H aliases).
      * by apply (proj1 IH Hrest n a).
    + intros Hall. f_equal.
      * unfold bit_of. simpl.
        rewrite (proj2 (any_held_false H aliases)); [done|].
        apply (Hall name). by left.
      * apply IH. intros n a Hin. apply (Hall n). by right.
Qed.

(** ** Files on disk *)

Lemma last_prefixes (s : string) : last (prefixes s) = Some s.
Proof.
  induction s as [|c s IH]; [done|]. cbn [prefixes].
  destruct (prefixes s) as [|p ps] eqn:E; [done|].
  change (last ("" :: map (String c) (p :: ps))) with (last (map (String c) (p :: ps))).
  change (map (String c) (p :: ps)) with (String c <$> (p :: ps)).
  by rewrite fmap_last, IH.
Qed.

Lemma apply_op_write (d : gmap string File) (i : nat) (p : string) (obs : Image) (q : nat) :
  apply_op d (WriteFrame i p obs q) = <[p := Jpeg obs q]> d.
Proof. reflexivity. Qed.

Lemma apply_op_dump (d : gmap string File) (p : string) (meta : Meta) :
  apply_op d (DumpManifest p meta) = <[p := Text (json_dump meta)]> d.
Proof.
  unfold apply_op. cbn [op_disks].
  change (map ?f ?l) with (f <$> l). by rewrite fmap_last, last_prefixes.
Qed.

Lemma disk_states_app (d : gmap string File) (l1 l2 : list Op) :
  disk_states d (l1 ++ l2) = disk_states d l1 ++ disk_states (disk_after d l1) l2.
Proof.
  revert d. induction l1 as [|op l1 IH]; intros d; [done|].
  cbn [app disk_states]. rewrite IH, <- app_assoc. reflexivity.
Qed.

Lemma disk_after_app (d : gmap string File) (l1 l2 : list Op) :
  disk_after d (l1 ++ l2) = disk_after (disk_after d l1) l2.
Proof. apply foldl_app. Qed.

Lemma disk_after_block (env : Env) (d : gmap string File) (i : nat) (obs : Image) :
  grabbed (ticks env i) = Some obs ->
  disk_after d (block env i) = <[frame_path (run_id env) i := Jpeg obs JPEG_QUALITY]> d.
Proof. intros Hg. unfold block. rewrite Hg. reflexivity. Qed.

Lemma disk_after_tail (env : Env) (d : gmap string File) (k : nat) (e : Ending) :
  (e = Crashed -> grabbed (ticks env k) = None) ->
  disk_after d (loop_tail env k e) = d.
Proof.
  destruct e; simpl; try done. intros Hg. unfold block. by rewrite Hg.
Qed.

Lemma disk_states_tail (env : Env) (d : gmap string File) (k : nat) (e : Ending) :
  (e = Crashed -> grabbed (ticks env k) = None) ->
  disk_states d (loop_tail env k e) = [].
Proof.
  destruct e; simpl; try done. intros Hg. unfold block. by rewrite Hg.
Qed.

(** Distinct ticks below the cap have distinct frame files, and none of
    them is the manifest. *)
Lemma frame_path_inj (run_id : string) (i j : nat) :
  i < N_STEPS_MAX -> j < N_STEPS_MAX ->
  frame_path run_id i = frame_path run_id j -> i = j.
Proof.
  intros Hi Hj Heq. unfold frame_path, path_join in Heq.
  apply (inj (String.app _)) in Heq. apply (inj (String.app _)) in Heq.
  pose proof (frame_number_name i Hi) as Hni.
  rewrite Heq, (frame_number_name j Hj) in Hni. by injection Hni.
Qed.

Lemma frame_path_not_manifest (run_id : string) (i : nat) :
  frame_path run_id i <> manifest_path run_id.
Proof.
  unfold frame_path, frames_dir, manifest_path, path_join.
  rewrite !app_assoc_str. intros Heq.
  apply (inj (String.app _)) in Heq. discriminate.
Qed.

Lemma disk_after_blocks (env : Env) (d : gmap string File) (k : nat) :
  k <= N_STEPS_MAX ->
  (forall i, i < k -> exists obs, grabbed (ticks env i) = Some obs) ->
  (forall i obs, i < k -> grabbed (ticks env i) = Some obs ->
     disk_after d (flat_map (block env) (seq 0 k)) !! frame_path (run_id env) i
     = Some (Jpeg obs JPEG_QUALITY))
  /\ (forall p, (forall i, i < k -> p <> frame_path (run_id env) i) ->
        disk_after d (flat_map (block env) (seq 0 k)) !! p = d !! p).
Proof.
  induction k as [|k IH]; intros Hk Hg.
  - split; [intros; lia|done].
  - destruct IH as [IHa IHb]; [lia|intros i Hi; apply Hg; lia|].
    destruct (Hg k ltac:(lia)) as [obsk Hobsk].
    rewrite seq_S, flat_map_app. simpl flat_map. rewrite app_nil_r, disk_after_app.
    rewrite (disk_after_block env _ k obsk Hobsk). split.
    + intros i obs Hi Hobs. destruct (decide (i = k)) as [->|Hne].
      * rewrite lookup_insert_eq. congruence.
      * rewrite lookup_insert_ne; [apply IHa; [lia|done]|].
        intros Heq. apply frame_path_inj in Heq; lia.
    + intros p Hp. rewrite lookup_insert_ne; [apply IHb|].
      * intros i Hi. apply Hp. lia.
      * intros Heq. by apply (Hp k ltac:(lia)).
Qed.

Lemma disk_after_block_failed (env : Env) (d : gmap string File) (i : nat) :
  grabbed (ticks env i) = None -> disk_after d (block env i) = d.
Proof. intros Hg. unfold block. rewrite Hg. reflexivity. Qed.

Lemma disk_after_blocks_other (env : Env) (d : gmap string File) (k : nat) (p : string) :
  (forall i, p <> frame_path (run_id env) i) ->
  disk_after d (flat_map (block env) (seq 0 k)) !! p = d !! p.
Proof.
  intros Hp. induction k as [|k IH]; [done|].
  rewrite seq_S, flat_map_app, disk_after_app. simpl flat_map. rewrite app_nil_r.
  destruct (grabbed (ticks env (0 + k))) as [obs|] eqn:Hg.
  - rewrite (disk_after_block env _ _ obs Hg), lookup_insert_ne; [done|].
    intros Heq. by apply (Hp (0 + k)).
  - by rewrite (disk_after_block_failed env _ _ Hg).
Qed.

Lemma disk_states_block (env : Env) (d : gmap string File) (i : nat) :
  disk_states d (block env i) =
    match grabbed (ticks env i) with
    | Some obs => [<[frame_path (run_id env) i := Jpeg obs JPEG_QUALITY]> d]
    | None => []
    end.
Proof. unfold block. destruct (grabbed (ticks env i)); reflexivity. Qed.

Lemma disk_states_blocks_path (env : Env) (d0 d : gmap string File) (k : nat) (p : string) :
  (forall i, p <> frame_path (run_id env) i) ->
  d ∈ disk_states d0 (flat_map (block env) (seq 0 k)) ->
  d !! p = d0 !! p.
Proof.
  intros Hp. induction k as [|k IH]; [by intros []%elem_of_nil|].
  rewrite seq_S, flat_map_app, disk_states_app, elem_of_app. intros [Hd|Hd]; [by apply IH|].
  cbn [flat_map] in Hd. rewrite app_nil_r, disk_states_block in Hd.
  destruct (grabbed (ticks env (0 + k))) as [obs|].
  - apply list_elem_of_singleton in Hd as ->.
    rewrite lookup_insert_ne by (intros Heq; by apply (Hp (0 + k))).
    by apply disk_after_blocks_other.
  - by apply elem_of_nil in Hd.
Qed.

Lemma frame_paths_app (l1 l2 : list Op) :
  frame_paths (l1 ++ l2) = frame_paths l1 ++ frame_paths l2.
Proof. apply omap_app. Qed.

Lemma frame_paths_blocks (env : Env) (a k : nat) :
  (forall i, a <= i < a + k -> exists obs, grabbed (ticks env i) = Some obs) ->
  frame_paths (flat_map (block env) (seq a k)) = map (frame_path (run_id env)) (seq a k).
Proof.
  revert a. induction k as [|k IH]; intros a Hg; simpl; [done|].
  rewrite frame_paths_app, IH by (intros i Hi; apply Hg; lia).
  destruct (Hg a ltac:(lia)) as [obs Hobs]. unfold block. rewrite Hobs. reflexivity.
Qed.

Lemma frame_paths_tail (env : Env) (k : nat) (e : Ending) :
  (e = Crashed -> grabbed (ticks env k) = None) ->
  frame_paths (loop_tail env k e) = [].
Proof.
  destruct e; simpl; try done. intros Hg. unfold block. by rewrite Hg.
Qed.

Lemma main_frame_paths (env : Env) :
  frame_paths (log (snd (main env)))
  = map (frame_path (run_id env)) (seq 0 (completed env)).
Proof.
  rewrite main_closed. cbn [snd log].
  rewrite !frame_paths_app, frame_paths_blocks, frame_paths_tail.
  - destruct (ending env); simpl; by rewrite app_nil_r.
  - intros He. by apply ending_crashed.
  - intros i Hi. apply completed_grabbed. lia.
Qed.

(** X7.  One frame file per record, and no file is written twice: the paths
    the loop writes frames to are those of ticks [0 .. len(steps)-1], are
    pairwise distinct, and none of them is the manifest's path. *)
Theorem frames_distinct (env : Env) :
  frame_paths (log (snd (main env)))
    = map (frame_path (run_id env)) (seq 0 (length (steps (snd (main env)))))
  /\ NoDup (frame_paths (log (snd (main env))))
  /\ manifest_path (run_id env) ∉ frame_paths (log (snd (main env))).
Proof.
  assert (Hlen : length (steps (snd (main env))) = completed env).
  { by rewrite main_steps, length_map, length_seq. }
  rewrite Hlen, main_frame_paths. split; [done|]. split.
  - apply (NoDup_fmap_2_strong (frame_path (run_id env))); [|apply NoDup_seq].
    intros i j Hi Hj Heq. apply elem_of_seq in Hi, Hj.
    pose proof (completed_le env). apply (frame_path_inj (run_id env)); [lia|lia|done].
  - intros Hin. apply list_elem_of_In, in_map_iff in Hin as (i & Heq & _).
    by apply frame_path_not_manifest in Heq.
Qed.

Lemma main_disk_after_loop (env : Env) :
  log (snd (main env))
    = (flat_map (block env) (seq 0 (completed env))
         ++ loop_tail env (completed env) (ending env))
        ++ match ending env with
           | Crashed => []
           | Exhausted | Stopped => finalization env (steps (snd (main env)))
           end.
Proof. rewrite main_steps. rewrite main_closed at 1. cbn [snd log]. by rewrite app_assoc. Qed.

Lemma loop_disk (env : Env) :
  disk_after ∅ (flat_map (block env) (seq 0 (completed env))
                  ++ loop_tail env (completed env) (ending env))
  = disk_after ∅ (flat_map (block env) (seq 0 (completed env))).
Proof.
  rewrite disk_after_app. apply disk_after_tail. intros He. by apply ending_crashed.
Qed.

Lemma loop_states_no_manifest (env : Env) (d : gmap string File) :
  d ∈ disk_states ∅ (flat_map (block env) (seq 0 (completed env))
                       ++ loop_tail env (completed env) (ending env)) ->
  d !! manifest_path (run_id env) = None.
Proof.
  rewrite disk_states_app, disk_states_tail, app_nil_r
    by (intros He; by apply ending_crashed).
  intros Hd.
  assert (Hne : forall i, manifest_path (run_id env) <> frame_path (run_id env) i).
  { intros i Heq. symmetry in Heq. by apply frame_path_not_manifest in Heq. }
  rewrite (disk_states_blocks_path env ∅ d _ _ Hne Hd). apply lookup_empty.
Qed.

Lemma loop_disk_frames (env : Env) (i : nat) (r : StepRecord) :
  steps (snd (main env)) !! i = Some r ->
  exists obs, grabbed (ticks env i) = Some obs
    /\ path_join (out_dir (run_id env)) (frame r) = frame_path (run_id env) i
    /\ disk_after ∅ (flat_map (block env) (seq 0 (completed env)))
         !! frame_path (run_id env) i = Some (Jpeg obs JPEG_QUALITY).
Proof.
  intros Hr. apply main_steps_lookup in Hr as [Hi ->].
  destruct (completed_grabbed env i Hi) as [obs Hobs]. exists obs.
  split; [done|]. split; [apply frame_ref_resolves|].
  apply (disk_after_blocks env ∅ (completed env)); [apply completed_le| |done|done].
  intros j Hj. by apply completed_grabbed.
Qed.

Lemma loop_disk_only_frames (env : Env) (p : string) :
  is_Some (disk_after ∅ (flat_map (block env) (seq 0 (completed env))) !! p) ->
  exists i, i < completed env /\ p = frame_path (run_id env) i.
Proof.
  intros Hp.
  destruct (decide (Exists (fun i => p = frame_path (run_id env) i) (seq 0 (completed env))))
    as [Hex|Hnex].
  - apply Exists_exists in Hex as (i & Hi & ->). apply elem_of_seq in Hi.
    exists i. split; [lia|done].
  - exfalso. rewrite (proj2 (disk_after_blocks env ∅ (completed env) (completed_le env)
                               (fun j Hj => completed_grabbed env j Hj))) in Hp.
    + rewrite lookup_empty in Hp. by destruct Hp.
    + intros i Hi ->. apply Hnex, Exists_exists. exists i. split; [|done].
      apply elem_of_seq. lia.
Qed.

(** X8.  After a run whose loop is left normally the disk holds the
    complete manifest, for every record the frame the record refers to --
    the image grabbed in the record's tick, at the configured quality -- and
    nothing else.  The frames are there before the manifest: in every state
    of the disk in which the manifest file exists, however incomplete, the
    frame of every record is already on disk. *)
Theorem disk_after_clean_run (env : Env) :
  fst (main env) = Ok () ->
  disk_after ∅ (log (snd (main env))) !! manifest_path (run_id env)
    = Some (Text (json_dump (meta_of env (steps (snd (main env))))))
  /\ (forall i r, steps (snd (main env)) !! i = Some r ->
        exists obs, grabbed (ticks env i) = Some obs
          /\ disk_after ∅ (log (snd (main env)))
               !! path_join (out_dir (run_id env)) (frame r)
             = Some (Jpeg obs JPEG_QUALITY))
  /\ (forall p, is_Some (disk_after ∅ (log (snd (main env))) !! p) ->
        p = manifest_path (run_id env)
        \/ exists i, i < length (steps (snd (main env))) /\ p = frame_path (run_id env) i)
  /\ (forall d, d ∈ disk_states ∅ (log (snd (main env))) ->
        is_Some (d !! manifest_path (run_id env)) ->
        forall i r, steps (snd (main env)) !! i = Some r ->
          exists obs, grabbed (ticks env i) = Some obs
            /\ d !! path_join (out_dir (run_id env)) (frame r)
               = Some (Jpeg obs JPEG_QUALITY)).
Proof.
  intros Hok. destruct (main_ok_log env Hok) as [Hne Hlog].
  assert (Hlen : length (steps (snd (main env))) = completed env).
  { by rewrite main_steps, length_map, length_seq. }
  assert (Hafter : disk_after ∅ (log (snd (main env)))
                   = <[manifest_path (run_id env)
                         := Text (json_dump (meta_of env (steps (snd (main env)))))]>
                       (disk_after ∅ (flat_map (block env) (seq 0 (completed env))))).
  { rewrite Hlog, disk_after_app, loop_disk. unfold finalization.
    cbn [disk_after foldl]. by rewrite apply_op_dump. }
  split; [|split; [|split]].
  - rewrite Hafter. apply lookup_insert_eq.
  - intros i r Hr. destruct (loop_disk_frames env i r Hr) as (obs & Hobs & Hpath & Hd).
    exists obs. split; [done|]. rewrite Hafter, Hpath, lookup_insert_ne; [done|].
    intros Heq. symmetry in Heq. by apply frame_path_not_manifest in Heq.
  - intros p Hp. rewrite Hafter in Hp.
    destruct (decide (p = manifest_path (run_id env))) as [|Hnm]; [by left|right].
    rewrite lookup_insert_ne in Hp by done. rewrite Hlen.
    by apply loop_disk_only_frames.
  - intros d Hd Hm i r Hr.
    destruct (loop_disk_frames env i r Hr) as (obs & Hobs & Hpath & Hframe).
    exists obs. split; [done|].
    rewrite Hlog, disk_states_app, elem_of_app in Hd. destruct Hd as [Hd|Hd].
    + apply loop_states_no_manifest in Hd. rewrite Hd in Hm. by destruct Hm.
    + rewrite loop_disk in Hd. unfold finalization in Hd.
      cbn [disk_states op_disks app] in Hd. rewrite app_nil_r in Hd.
      apply list_elem_of_In, in_map_iff in Hd as (pre & <- & _).
      rewrite Hpath, lookup_insert_ne; [done|].
      intros Heq. symmetry in Heq. by apply frame_path_not_manifest in Heq.
Qed.

Lemma disk_after_clean_run_witness :
  disk_after ∅ (log (snd (main env_stop))) !! manifest_path (run_id env_stop)
  = Some (Text (json_dump (meta_of env_stop (steps (snd (main env_stop)))))).
Proof.
  apply (proj1 (disk_after_clean_run env_stop ltac:(vm_compute; reflexivity))).
Defined.

(** X9.  A run ended by a failing grab leaves no manifest: at no point does
    the manifest path hold a file.  What it leaves is the frame of every
    tick completed before, and nothing else. *)
Theorem disk_after_failed_grab (env : Env) :
  fst (main env) <> Ok () ->
  (forall d, d ∈ disk_states ∅ (log (snd (main env))) ->
     d !! manifest_path (run_id env) = None)
  /\ disk_after ∅ (log (snd (main env))) !! manifest_path (run_id env) = None
  /\ (forall i r, steps (snd (main env)) !! i = Some r ->
        exists obs, grabbed (ticks env i) = Some obs
          /\ disk_after ∅ (log (snd (main env)))
               !! path_join (out_dir (run_id env)) (frame r)
             = Some (Jpeg obs JPEG_QUALITY))
  /\ (forall p, is_Some (disk_after ∅ (log (snd (main env))) !! p) ->
        exists i, i < length (steps (snd (main env))) /\ p = frame_path (run_id env) i).
Proof.
  intros Hfail.
  assert (He : ending env = Crashed).
  { rewrite main_closed in Hfail. cbn [fst] in Hfail. by destruct (ending env). }
  assert (Hlen : length (steps (snd (main env))) = completed env).
  { by rewrite main_steps, length_map, length_seq. }
  pose proof (main_disk_after_loop env) as Hlog. rewrite He, app_nil_r in Hlog.
  rewrite <- He in Hlog at 1.
  assert (Hafter : disk_after ∅ (log (snd (main env)))
                   = disk_after ∅ (flat_map (block env) (seq 0 (completed env)))).
  { rewrite Hlog. apply loop_disk. }
  assert (Hnm : forall i, manifest_path (run_id env) <> frame_path (run_id env) i).
  { intros i Heq. symmetry in Heq. by apply frame_path_not_manifest in Heq. }
  split; [|split; [|split]].
  - intros d Hd. rewrite Hlog in Hd. by apply loop_states_no_manifest in Hd.
  - rewrite Hafter, disk_after_blocks_other by done. apply lookup_empty.
  - intros i r Hr. destruct (loop_disk_frames env i r Hr) as (obs & Hobs & Hpath & Hd).
    exists obs. split; [done|]. by rewrite Hafter, Hpath.
  - intros p Hp. rewrite Hafter in Hp. rewrite Hlen. by apply loop_disk_only_frames.
Qed.

Lemma disk_after_failed_grab_witness :
  disk_after ∅ (log (snd (main env_grab_fails))) !! manifest_path (run_id env_grab_fails)
  = None.
Proof.
  apply (proj1 (proj2 (disk_after_failed_grab env_grab_fails
                         ltac:(vm_compute; discriminate)))).
Defined.

(** ** The manifest and its records *)

Lemma encode_bits (H : gset string) (K : list (string * gset string)) :
  Forall (fun b => b = 0 \/ b = 1) (encode H K).
Proof.
  rewrite encode_map. apply Forall_forall. intros b Hb.
  apply list_elem_of_In, in_map_iff in Hb as (entry & <- & _).
  unfold bit_of. destruct (any_held H entry.2); auto.
Qed.

(** X10.  The positions of an action vector are those of the manifest's
    keymap: the manifest lists the channels of [KEYMAP] in order, each with
    its aliases in increasing order and no alias lost, and every record's
    vector has one entry, 0 or 1, per listed channel. *)
Theorem positional_stability (env : Env) :
  map fst (meta_keymap (meta_of env (steps (snd (main env))))) = map fst KEYMAP
  /\ Forall2 (fun listed entry =>
                fst listed = fst entry
                /\ StronglySorted str_lt (snd listed)
                /\ forall a, a ∈ snd listed <-> a ∈ snd entry)
             (meta_keymap (meta_of env (steps (snd (main env))))) KEYMAP
  /\ Forall (fun r =>
               length (action r)
                 = length (meta_keymap (meta_of env (steps (snd (main env)))))
               /\ Forall (fun b => b = 0 \/ b = 1) (action r))
            (steps (snd (main env))).
Proof.
  split; [|split].
  - unfold meta_of. cbn [meta_keymap]. rewrite map_map. reflexivity.
  - unfold meta_of. cbn [meta_keymap].
    generalize KEYMAP. intros K. induction K as [|entry K IH]; constructor; [|done].
    cbn [fst snd]. split; [done|]. split; [apply sorted_strict|apply sorted_elem].
  - apply Forall_forall. intros r Hr. apply main_steps_elem in Hr as (i & _ & ->).
    cbn [action record_of]. unfold meta_of. cbn [meta_keymap].
    rewrite encode_length, length_map. split; [done|apply encode_bits].
Qed.

(** ** Stopping before the first tick *)

Lemma cap_positive : 0 < N_STEPS_MAX.
Proof. unfold N_STEPS_MAX. lia. Qed.

(** X11.  When [ESC] is pressed before the loop first reads the stop flag,
    the run records nothing: no frame is grabbed or written, [steps] is
    empty, and a manifest with an empty step list is still written. *)
Theorem stop_before_first_tick (env : Env) :
  pressed_name "esc" (keys_before_check (ticks env 0)) ->
  fst (main env) = Ok ()
  /\ steps (snd (main env)) = []
  /\ log (snd (main env))
     = [ReadStop 0 true; ListenerStop;
        DumpManifest (manifest_path (run_id env)) (meta_of env [])].
Proof.
  intros Hesc.
  assert (Hstop : stop_flag (shared (world_at_check env 0)) = true).
  { unfold world_at_check, after_check. simpl world_before.
    apply deliver_all_esc_stops; [apply world0_consistent|done]. }
  assert (Ho : outcome env 0 N_STEPS_MAX = (0 - 0, Stopped)).
  { apply outcome_stop_at; [pose proof cap_positive; lia| |done]. intros i Hi. lia. }
  rewrite main_closed. unfold completed, ending. rewrite Ho. by cbn.
Qed.

Lemma stop_before_first_tick_witness : steps (snd (main env_esc_first)) = [].
Proof.
  refine (proj1 (proj2 (stop_before_first_tick env_esc_first _))).
  exists (KeyEnum Key_esc). split; [|reflexivity]. simpl. by left.
Defined.

(** ** The characters of the manifest *)

Lemma str_forall_app (P : ascii -> bool) (a b : string) :
  str_forall P (a +:+ b) = str_forall P a && str_forall P b.
Proof.
  induction a as [|c a IH]; [done|]. rewrite app_cons_str. simpl.
  by rewrite IH, andb_assoc.
Qed.

Lemma digit_plain (r : N) : (r < 10)%N -> plain_char (digit r) = true.
Proof.
  intros Hr.
  assert (Hall : forallb (fun r => plain_char (digit r)) (N_range 10 0) = true) by reflexivity.
  rewrite forallb_forall in Hall. apply Hall.
  apply list_elem_of_In, N_range_elem. lia.
Qed.

Lemma str_int_aux_plain (fuel : nat) (n : N) (acc : string) :
  str_forall plain_char acc = true ->
  str_forall plain_char (str_int_aux fuel n acc) = true.
Proof.
  revert n acc. induction fuel as [|fuel IH]; intros n acc Hacc; simpl; [done|].
  assert (Hd : str_forall plain_char (String (digit (n mod 10)) acc) = true).
  { simpl. rewrite Hacc, digit_plain; [done|]. apply N.mod_lt. lia. }
  destruct (n / 10 =? 0)%N; [done|]. by apply IH.
Qed.

Lemma str_int_plain (n : N) : str_forall plain_char (str_int n) = true.
Proof. unfold str_int. by apply str_int_aux_plain. Qed.

Lemma zeros_plain (k : nat) : str_forall plain_char (zeros k) = true.
Proof. induction k as [|k IH]; [done|]. simpl. by rewrite IH. Qed.

Lemma zfill_plain (w : nat) (s : string) :
  str_forall plain_char s = true -> str_forall plain_char (zfill w s) = true.
Proof. intros Hs. unfold zfill. by rewrite str_forall_app, zeros_plain, Hs. Qed.

Lemma strip_zeros_plain (s : string) :
  str_forall plain_char s = true -> str_forall plain_char (strip_zeros s) = true.
Proof.
  induction s as [|c s IH]; [done|]. cbn [str_forall strip_zeros].
  intros [Hc Hs]%andb_true_iff. specialize (IH Hs).
  destruct (strip_zeros s) as [|d rest].
  - destruct (Ascii.eqb c "0"); [done|]. cbn [str_forall]. by rewrite Hc.
  - cbn [str_forall] in IH |- *. by rewrite Hc, IH.
Qed.

Lemma fraction_plain (s : string) :
  str_forall plain_char s = true -> str_forall plain_char (fraction s) = true.
Proof.
  intros Hs. apply strip_zeros_plain in Hs. unfold fraction.
  by destruct (strip_zeros s).
Qed.

Lemma float_repr_plain (x : Timestamp) : str_forall plain_char (float_repr x) = true.
Proof.
  unfold float_repr. rewrite !str_forall_app, str_int_plain, fraction_plain; [done|].
  apply zfill_plain, str_int_plain.
Qed.

Lemma spaces_plain (k : nat) : str_forall plain_char (spaces k) = true.
Proof. induction k as [|k IH]; [done|]. simpl. by rewrite IH. Qed.

Lemma newline_indent_plain (level : nat) :
  str_forall plain_char (newline_indent level) = true.
Proof. unfold newline_indent. simpl. apply spaces_plain. Qed.

Lemma item_separator_plain (level : nat) :
  str_forall plain_char (item_separator level) = true.
Proof.
  unfold item_separator. rewrite str_forall_app, newline_indent_plain. reflexivity.
Qed.

Lemma escape_char_plain (c : ascii) : str_forall plain_char (escape_char c) = true.
Proof. destruct c as [[] [] [] [] [] [] [] []]; reflexivity. Qed.

Lemma escape_plain (s : string) : str_forall plain_char (escape s) = true.
Proof.
  induction s as [|c s IH]; [done|]. simpl.
  by rewrite str_forall_app, escape_char_plain, IH.
Qed.

Lemma json_str_plain (s : string) : str_forall plain_char (json_str s) = true.
Proof.
  unfold json_str. simpl. rewrite str_forall_app, escape_plain. reflexivity.
Qed.

Lemma concat_plain (sep : string) (parts : list string) :
  str_forall plain_char sep = true ->
  Forall (fun p => str_forall plain_char p = true) parts ->
  str_forall plain_char (String.concat sep parts) = true.
Proof.
  intros Hsep Hparts. induction Hparts as [|x l Hx Hl IH]; [done|].
  simpl. destruct l as [|y l]; [done|].
  by rewrite !str_forall_app, Hx, Hsep, IH.
Qed.

Lemma enclosed_plain (o c : string) (level : nat) (parts : list string) :
  str_forall plain_char o = true -> str_forall plain_char c = true ->
  Forall (fun p => str_forall plain_char p = true) parts ->
  str_forall plain_char
    (o +:+ newline_indent (S level)
       +:+ String.concat (item_separator (S level)) parts
       +:+ newline_indent level +:+ c) = true.
Proof.
  intros Ho Hc Hparts.
  rewrite !str_forall_app, Ho, Hc, !newline_indent_plain, concat_plain; [done| |done].
  apply item_separator_plain.
Qed.

Lemma dumps_plain (v : json) : forall level, str_forall plain_char (dumps level v) = true.
Proof.
  induction v as [n|x|s|items IH|items IH] using json_nested_ind; intros level.
  - apply str_int_plain.
  - apply float_repr_plain.
  - apply json_str_plain.
  - destruct items as [|v items]; [done|].
    apply (enclosed_plain "[" "]" level (map (dumps (S level)) (v :: items))); [done|done|].
    rewrite Forall_forall in IH. apply Forall_forall. intros x Hx.
    apply list_elem_of_In, in_map_iff in Hx as (y & <- & Hy).
    apply IH. by apply list_elem_of_In.
  - destruct items as [|kv items]; [done|].
    apply (enclosed_plain "{" "}" level
             (map (fun kv => json_str (fst kv) +:+ ": " +:+ dumps (S level) (snd kv))
                  (kv :: items))); [done|done|].
    rewrite Forall_forall in IH. apply Forall_forall. intros x Hx.
    apply list_elem_of_In, in_map_iff in Hx as (y & <- & Hy).
    rewrite !str_forall_app, json_str_plain. simpl.
    apply IH. by apply list_elem_of_In.
Qed.

(** X12.  The manifest is plain ASCII whatever the key names are: every
    character of the dumped document is a printable ASCII character or a
    line feed (names with other characters are written with escapes), and
    every string literal and bracket of it is closed. *)
Theorem manifest_plain_ascii (meta : Meta) :
  str_forall plain_char (json_dump meta) = true
  /\ scan (0, Outside) (json_dump meta) = Some (0, Outside).
Proof.
  split; [apply dumps_plain|apply dumps_balanced].
Qed.

(** ** Finding the newest run *)

Lemma str_le_refl (a : string) : str_le a a.
Proof. apply str_le_lt_eq. by right. Qed.

Lemma str_lt_not_le (a b : string) : str_lt a b -> ~ str_le b a.
Proof.
  intros Hab Hba. apply str_le_lt_eq in Hba as [Hba| ->].
  - apply (str_lt_irrefl a). by eapply str_lt_trans.
  - by apply (str_lt_irrefl a).
Qed.

Lemma last_sorted_max (l : list string) (x : string) :
  StronglySorted str_le l -> last l = Some x -> forall y, y ∈ l -> str_le y x.
Proof.
  intros Hs Hlast y Hy. apply last_Some in Hlast as [l' ->].
  apply elem_of_app in Hy as [Hy|Hy].
  - eapply StronglySorted_app_1_elem_of; [exact Hs|exact Hy|]. by left.
  - apply list_elem_of_singleton in Hy as ->. apply str_le_refl.
Qed.

Lemma runs_elem (entries : list DirEntry) (name : string) :
  name ∈ merge_sort str_le
           (map entry_name (filter (fun p => entry_is_dir p = true) entries))
  <-> exists e, e ∈ entries /\ entry_is_dir e = true /\ name = entry_name e.
Proof.
  rewrite merge_sort_Permutation, list_elem_of_In, in_map_iff. split.
  - intros (e & <- & He). apply list_elem_of_In, list_elem_of_filter in He as [Hd He].
    by exists e.
  - intros (e & He & Hd & ->). exists e. split; [done|].
    apply list_elem_of_In, list_elem_of_filter. by split.
Qed.

(** X13.  [newest_rollout_dir] raises [FileNotFoundError] exactly when the
    base directory holds no directory (plain files do not count), and it
    raises nothing else; otherwise it returns a directory of the base whose
    name is the greatest, in string order, of all directories there. *)
Theorem newest_rollout_dir_greatest (base : string) (entries : list DirEntry) :
  (newest_rollout_dir base entries = Throws FileNotFoundError
   <-> forall e, e ∈ entries -> entry_is_dir e = false)
  /\ (forall err, newest_rollout_dir base entries = Throws err ->
        err = FileNotFoundError)
  /\ (forall p, newest_rollout_dir base entries = Returns p ->
        exists e, e ∈ entries /\ entry_is_dir e = true
          /\ p = path_join base (entry_name e)
          /\ forall e', e' ∈ entries -> entry_is_dir e' = true ->
               str_le (entry_name e') (entry_name e)).
Proof.
  unfold newest_rollout_dir.
  pose proof (runs_elem entries) as Helem.
  assert (StronglySorted str_le
            (merge_sort str_le
               (map entry_name (filter (fun p => entry_is_dir p = true) entries))))
    as Hs by (apply StronglySorted_merge_sort; apply _).
  destruct (last _) as [name|] eqn:Hlast.
  - split; [|split]; [|done|].
    + split; [done|]. intros Hnone. exfalso.
      assert (name ∈ merge_sort str_le
                (map entry_name (filter (fun p => entry_is_dir p = true) entries)))
        as Hin.
      { apply last_Some in Hlast as [l' ->]. apply elem_of_app. right. by left. }
      apply Helem in Hin as (e & He & Hd & _).
      rewrite (Hnone e He) in Hd. done.
    + intros p [= <-].
      assert (name ∈ merge_sort str_le
                (map entry_name (filter (fun p => entry_is_dir p = true) entries)))
        as Hin.
      { apply last_Some in Hlast as [l' ->]. apply elem_of_app. right. by left. }
      apply Helem in Hin as (e & He & Hd & ->).
      exists e. repeat split; try done.
      intros e' He' Hd'. eapply last_sorted_max; [exact Hs|exact Hlast|].
      apply Helem. by exists e'.
  - split; [|split]; [|by intros err [= <-]|done].
    split; [|done]. intros _ e He.
    destruct (entry_is_dir e) eqn:Hd; [|done]. exfalso.
    assert (entry_name e ∈ merge_sort str_le
              (map entry_name (filter (fun p => entry_is_dir p = true) entries)))
      as Hin by (apply Helem; by exists e).
    apply last_None in Hlast. rewrite Hlast in Hin. by apply elem_of_nil in Hin.
Qed.

(** ** Run identifiers *)

Lemma two_digits_checked : forallb (width_ok 2) (N_range 99 0) = true.
Proof. vm_compute. reflexivity. Qed.

Lemma four_digits_checked : forallb (width_ok 4) (N_range (N.to_nat 8999) 1000) = true.
Proof. vm_compute. reflexivity. Qed.

Lemma width_ok_at (w k : nat) (start i : N) :
  forallb (width_ok w) (N_range k start) = true ->
  (start <= i < start + N.of_nat k)%N ->
  str_lt (zfill w (str_int i)) (zfill w (str_int (N.succ i)))
  /\ String.length (zfill w (str_int i)) = w
  /\ String.length (zfill w (str_int (N.succ i))) = w.
Proof.
  intros Hall Hi. rewrite forallb_forall in Hall.
  specialize (Hall i (proj1 (list_elem_of_In _ _) (N_range_elem k start i Hi))).
  unfold width_ok in Hall. rewrite !andb_true_iff in Hall.
  destruct Hall as [[Hlt Hl1] Hl2].
  apply Nat.eqb_eq in Hl1, Hl2. repeat split; try done.
  unfold String.ltb in Hlt. unfold str_lt. by destruct (String.compare _ _).
Qed.

Lemma width_lt (w k : nat) (start i j : N) :
  forallb (width_ok w) (N_range k start) = true ->
  (start <= i)%N -> (i < j)%N -> (j <= start + N.of_nat k)%N ->
  str_lt (zfill w (str_int i)) (zfill w (str_int j)).
Proof.
  intros Hall Hi Hij Hj.
  assert (exists d : nat, j = (i + N.of_nat (S d))%N) as [d ->].
  { exists (N.to_nat (j - i) - 1). lia. }
  clear Hij. induction d as [|d IH].
  - replace (i + N.of_nat 1)%N with (N.succ i) by lia.
    apply (width_ok_at w k start i Hall). lia.
  - eapply str_lt_trans; [apply IH; lia|].
    replace (i + N.of_nat (S (S d)))%N with (N.succ (i + N.of_nat (S d))) by lia.
    apply (width_ok_at w k start _ Hall). lia.
Qed.

Lemma width_length (w k : nat) (start i : N) :
  forallb (width_ok w) (N_range k start) = true ->
  (start <= i <= start + N.of_nat k)%N -> 0 < k ->
  String.length (zfill w (str_int i)) = w.
Proof.
  intros Hall Hi Hk. destruct (decide (i = start)) as [->|Hne].
  - apply (width_ok_at w k start start Hall). lia.
  - replace i with (N.succ (N.pred i)) by lia.
    apply (width_ok_at w k start (N.pred i) Hall). lia.
Qed.

Lemma year_lt (i j : N) :
  (1000 <= i)%N -> (i < j)%N -> (j < 10000)%N ->
  str_lt (zfill 4 (str_int i)) (zfill 4 (str_int j)).
Proof. intros. apply (width_lt 4 (N.to_nat 8999) 1000 i j four_digits_checked); lia. Qed.

Lemma year_length (i : N) :
  (1000 <= i < 10000)%N -> String.length (zfill 4 (str_int i)) = 4.
Proof. intros. apply (width_length 4 (N.to_nat 8999) 1000 i four_digits_checked); lia. Qed.

Lemma field_lt (i j : N) :
  (i < j)%N -> (j < 100)%N ->
  str_lt (zfill 2 (str_int i)) (zfill 2 (str_int j)).
Proof. intros. apply (width_lt 2 99 0 i j two_digits_checked); lia. Qed.

Lemma field_length (i : N) :
  (i < 100)%N -> String.length (zfill 2 (str_int i)) = 2.
Proof. intros. apply (width_length 2 99 0 i two_digits_checked); lia. Qed.

(** Two texts of one length that differ decide the comparison of whatever
    follows them. *)
Lemma str_lt_app_len (a b x y : string) :
  String.length a = String.length b -> str_lt a b -> str_lt (a +:+ x) (b +:+ y).
Proof.
  unfold str_lt. revert b. induction a as [|c a IH]; intros [|d b]; simpl; try done.
  intros [= Hlen]. destruct (Ascii.compare c d); try done. by apply IH.
Qed.

Lemma run_id_lt (a b : struct_time) :
  four_digit_year a -> four_digit_year b ->
  (tm_key a < tm_key b)%N ->
  str_lt (strftime_run_id a) (strftime_run_id b).
Proof.
  destruct a as [Ya ma da ha mia sa], b as [Yb mb db hb mib sb].
  unfold four_digit_year, tm_key, strftime_run_id. simpl.
  intros (HYa & Hma & Hda & Hha & Hmia & Hsa) (HYb & Hmb & Hdb & Hhb & Hmib & Hsb) Hlt.
  destruct (N.lt_trichotomy Ya Yb) as [HY|[->|HY]]; [|clear HYa|lia].
  { apply str_lt_app_len; [by rewrite !year_length by lia|]. apply year_lt; lia. }
  apply str_lt_prefix.
  destruct (N.lt_trichotomy ma mb) as [Hm|[->|Hm]]; [|clear Hma|lia].
  { apply str_lt_app_len; [by rewrite !field_length by lia|]. apply field_lt; lia. }
  apply str_lt_prefix.
  destruct (N.lt_trichotomy da db) as [Hd|[->|Hd]]; [|clear Hda|lia].
  { apply str_lt_app_len; [by rewrite !field_length by lia|]. apply field_lt; lia. }
  apply str_lt_prefix. apply (str_lt_prefix "_").
  destruct (N.lt_trichotomy ha hb) as [Hh|[->|Hh]]; [|clear Hha|lia].
  { apply str_lt_app_len; [by rewrite !field_length by lia|]. apply field_lt; lia. }
  apply str_lt_prefix.
  destruct (N.lt_trichotomy mia mib) as [Hmi|[->|Hmi]]; [|clear Hmia|lia].
  { apply str_lt_app_len; [by rewrite !field_length by lia|]. apply field_lt; lia. }
  apply str_lt_prefix. apply field_lt; lia.
Qed.

Lemma tm_key_inj (a b : struct_time) :
  four_digit_year a -> four_digit_year b -> tm_key a = tm_key b -> a = b.
Proof.
  destruct a as [Ya ma da ha mia sa], b as [Yb mb db hb mib sb].
  unfold four_digit_year, tm_key. simpl.
  intros (HYa & Hma & Hda & Hha & Hmia & Hsa) (HYb & Hmb & Hdb & Hhb & Hmib & Hsb) Heq.
  assert (Ya = Yb) as -> by lia. assert (ma = mb) as -> by lia.
  assert (da = db) as -> by lia. assert (ha = hb) as -> by lia.
  assert (mia = mib) as -> by lia. assert (sa = sb) as -> by lia.
  reflexivity.
Qed.

Lemma run_id_le_key (a b : struct_time) :
  four_digit_year a -> four_digit_year b ->
  str_le (strftime_run_id a) (strftime_run_id b) -> (tm_key a <= tm_key b)%N.
Proof.
  intros Ha Hb Hle. destruct (N.le_gt_cases (tm_key a) (tm_key b)) as [|Hgt]; [done|].
  exfalso. eapply str_lt_not_le; [|exact Hle]. by apply run_id_lt.
Qed.

(** X14.  Run identifiers order as the readings of the local clock do:
    for two readings with four-digit years, one is the smaller -- year,
    month, day, hour, minute, second compared in this order -- exactly when
    its identifier is the smaller one in string order, and two identifiers
    are the same only for the same reading.  Nothing is said of instants:
    the local clock repeats its readings when it is set back. *)
Theorem run_id_order (a b : struct_time) :
  four_digit_year a -> four_digit_year b ->
  ((tm_key a < tm_key b)%N <-> str_lt (strftime_run_id a) (strftime_run_id b))
  /\ (strftime_run_id a = strftime_run_id b -> tm_key a = tm_key b).
Proof.
  intros Ha Hb. split; [split|].
  - by apply run_id_lt.
  - intros Hlt. destruct (N.lt_ge_cases (tm_key a) (tm_key b)) as [|Hge]; [done|].
    exfalso. apply (str_lt_not_le _ _ Hlt).
    apply N.lt_eq_cases in Hge as [Hgt|Heq].
    + apply str_le_lt_eq. left. by apply run_id_lt.
    + rewrite (tm_key_inj b a Hb Ha Heq). apply str_le_refl.
  - intros Heq. apply N.le_antisymm; apply run_id_le_key; try done;
      rewrite Heq; apply str_le_refl.
Qed.

Lemma run_id_order_witness :
  ((tm_key (mkTime 2024 12 31 23 59 59) < tm_key (mkTime 2025 1 1 0 0 0))%N
   <-> str_lt (strftime_run_id (mkTime 2024 12 31 23 59 59))
              (strftime_run_id (mkTime 2025 1 1 0 0 0)))
  /\ (strftime_run_id (mkTime 2024 12 31 23 59 59)
      = strftime_run_id (mkTime 2025 1 1 0 0 0) ->
      tm_key (mkTime 2024 12 31 23 59 59) = tm_key (mkTime 2025 1 1 0 0 0)).
Proof.
  apply run_id_order; unfold four_digit_year; simpl; lia.
Defined.

Lemma newest_greatest_reading (base : string) (entries : list DirEntry)
    (tms : list struct_time) :
  (forall e, e ∈ entries -> entry_is_dir e = true ->
     exists tm, tm ∈ tms /\ entry_name e = strftime_run_id tm) ->
  (forall tm, tm ∈ tms ->
     four_digit_year tm /\ mkEntry (strftime_run_id tm) true ∈ entries) ->
  tms <> [] ->
  exists tm, tm ∈ tms
    /\ newest_rollout_dir base entries = Returns (path_join base (strftime_run_id tm))
    /\ forall tm', tm' ∈ tms -> (tm_key tm' <= tm_key tm)%N.
Proof.
  intros Hdirs Hruns Hne. unfold newest_rollout_dir.
  assert (StronglySorted str_le
            (merge_sort str_le
               (map entry_name (filter (fun p => entry_is_dir p = true) entries))))
    as Hs by (apply StronglySorted_merge_sort; apply _).
  destruct (last _) as [name|] eqn:Hlast.
  - assert (name ∈ merge_sort str_le
              (map entry_name (filter (fun p => entry_is_dir p = true) entries)))
      as Hin.
    { apply last_Some in Hlast as [l' ->]. apply elem_of_app. right. by left. }
    apply runs_elem in Hin as (e & He & Hd & ->).
    destruct (Hdirs e He Hd) as (tm & Htm & Hname).
    exists tm. rewrite <- Hname. repeat split; try done.
    intros tm' Htm'. destruct (Hruns tm' Htm') as [Hv' He'].
    apply run_id_le_key; [done|by apply Hruns|].
    rewrite <- Hname. eapply last_sorted_max; [exact Hs|exact Hlast|].
    apply runs_elem. by eexists (mkEntry _ true).
  - exfalso. destruct tms as [|tm0 tms']; [done|].
    destruct (Hruns tm0) as [_ He0]; [by left|].
    apply last_None in Hlast.
    assert (strftime_run_id tm0 ∈ merge_sort str_le
              (map entry_name (filter (fun p => entry_is_dir p = true) entries)))
      as Hin by (apply runs_elem; by eexists (mkEntry _ true)).
    rewrite Hlast in Hin. by apply elem_of_nil in Hin.
Qed.

(** X15.  The readers pick the latest run when the local clock was not set
    back between the runs.  Let the directories of the base be the runs the
    recorder started at the instants [starts] (files that are no
    directories may lie beside them), each named by the reading of the
    local clock at its start; if a later start always has a greater
    reading, [newest_rollout_dir] returns the directory of the run started
    last. *)
Theorem newest_is_latest (base : string) (localtime : Timestamp -> struct_time)
    (entries : list DirEntry) (starts : list Timestamp) :
  (forall e, e ∈ entries -> entry_is_dir e = true ->
     exists t, t ∈ starts /\ entry_name e = strftime_run_id (localtime t)) ->
  (forall t, t ∈ starts ->
     four_digit_year (localtime t)
     /\ mkEntry (strftime_run_id (localtime t)) true ∈ entries) ->
  (forall a b, a ∈ starts -> b ∈ starts -> (a < b)%N ->
     (tm_key (localtime a) < tm_key (localtime b))%N) ->
  starts <> [] ->
  exists t, t ∈ starts
    /\ newest_rollout_dir base entries
       = Returns (path_join base (strftime_run_id (localtime t)))
    /\ forall t', t' ∈ starts -> (t' <= t)%N.
Proof.
  intros Hdirs Hruns Hmono Hne.
  destruct (newest_greatest_reading base entries (map localtime starts))
    as (tm & Htm & Hres & Hmax).
  - intros e He Hd. destruct (Hdirs e He Hd) as (t & Ht & Hname).
    exists (localtime t). split; [|done].
    apply list_elem_of_In, in_map, list_elem_of_In, Ht.
  - intros tm Htm. apply list_elem_of_In, in_map_iff in Htm as (t & <- & Ht).
    apply Hruns. by apply list_elem_of_In.
  - destruct starts; [done|discriminate].
  - apply list_elem_of_In, in_map_iff in Htm as (t & <- & Ht).
    apply list_elem_of_In in Ht. exists t. split; [done|]. split; [done|].
    intros t' Ht'. destruct (N.le_gt_cases t' t) as [|Hgt]; [done|].
    exfalso. specialize (Hmono t t' Ht Ht' Hgt).
    assert (tm_key (localtime t') <= tm_key (localtime t))%N; [|lia].
    apply Hmax. apply list_elem_of_In, in_map, list_elem_of_In, Ht'.
Qed.

Lemma newest_is_latest_witness :
  exists t, t ∈ [5%N; 7%N]
    /\ newest_rollout_dir "data/teleop"
         [mkEntry "20250101_000007" true; mkEntry "notes.txt" false;
          mkEntry "20250101_000005" true]
       = Returns (path_join "data/teleop"
                    (strftime_run_id (mkTime 2025 1 1 0 0 t)))
    /\ forall t', t' ∈ [5%N; 7%N] -> (t' <= t)%N.
Proof.
  apply (newest_is_latest "data/teleop" (fun t => mkTime 2025 1 1 0 0 t)).
  - intros e He Hd. apply list_elem_of_In in He.
    destruct He as [<-|[<-|[<-|[]]]]; [|done|].
    + exists 7%N. split; [in_list|reflexivity].
    + exists 5%N. split; [in_list|reflexivity].
  - intros t Ht. apply list_elem_of_In in Ht.
    destruct Ht as [<-|[<-|[]]].
    + split; [unfold four_digit_year; simpl; lia|in_list].
    + split; [unfold four_digit_year; simpl; lia|in_list].
  - intros a b _ _ Hab. unfold tm_key. simpl. lia.
  - done.
Defined.

(** ** Counting actions *)

Lemma counter_get_incr `{Countable K} (c : gmap K nat) (k k' : K) :
  counter_get (counter_incr c k) k'
  = counter_get c k' + (if decide (k = k') then 1 else 0).
Proof.
  unfold counter_incr, counter_get at 1. destruct (decide (k = k')) as [->|Hne].
  - rewrite lookup_insert_eq. simpl. lia.
  - rewrite lookup_insert_ne by done. fold (counter_get c k'). lia.
Qed.

Lemma count_bits_result (names : list string) (a : list nat) :
  forall (i : nat) (on_counts : gmap string nat),
  match count_bits names i a on_counts with
  | Throws e =>
      e = IndexError /\ exists k, a !! k = Some 1 /\ length names <= i + k
  | Returns on_counts' =>
      (forall k, a !! k = Some 1 -> i + k < length names)
      /\ (NoDup names -> forall j n, names !! j = Some n ->
            counter_get on_counts' n
            = counter_get on_counts n
              + (if decide (i <= j /\ a !! (j - i) = Some 1) then 1 else 0))
  end.
Proof.
  induction a as [|v a IH]; intros i on_counts; cbn [count_bits].
  - split; [by intros k|]. intros _ j n _.
    destruct (decide _) as [[_ Hl]|]; [done|lia].
  - destruct (v =? 1)%nat eqn:Hv.
    + apply Nat.eqb_eq in Hv as ->.
      destruct (names !! i) as [m|] eqn:Hm.
      * specialize (IH (S i) (counter_incr on_counts m)).
        destruct (count_bits names (S i) a (counter_incr on_counts m)) as [on'|e].
        -- destruct IH as [Hin Hget]. split.
           ++ intros [|k] Hk; [apply lookup_lt_Some in Hm; lia|].
              specialize (Hin k Hk). lia.
           ++ intros Hnd j n Hj. rewrite (Hget Hnd j n Hj), counter_get_incr.
              destruct (decide (i = j)) as [<-|Hij].
              ** assert (m = n) as -> by congruence.
                 rewrite decide_True by done.
                 rewrite (decide_False (P := S i <= i /\ _)) by lia.
                 rewrite decide_True; [lia|]. split; [lia|].
                 by rewrite Nat.sub_diag.
              ** rewrite decide_False.
                 2:{ intros ->. apply Hij. by eapply NoDup_lookup. }
                 destruct (decide (S i <= j /\ a !! (j - S i) = Some 1)) as [[Hle Hl]|Hno].
                 --- rewrite decide_True; [lia|]. split; [lia|].
                     replace (j - i) with (S (j - S i)) by lia. done.
                 --- rewrite decide_False; [lia|]. intros [Hle Hl]. apply Hno.
                     split; [lia|].
                     replace (j - i) with (S (j - S i)) in Hl by lia. done.
        -- destruct IH as [-> (k & Hk & Hlen)]. split; [done|].
           exists (S k). split; [done|lia].
      * split; [done|]. exists 0. split; [done|].
        apply lookup_ge_None in Hm. lia.
    + apply Nat.eqb_neq in Hv.
      specialize (IH (S i) on_counts).
      destruct (count_bits names (S i) a on_counts) as [on'|e].
      * destruct IH as [Hin Hget]. split.
        -- intros [|k] Hk; [simpl in Hk; congruence|].
           specialize (Hin k Hk). lia.
        -- intros Hnd j n Hj. rewrite (Hget Hnd j n Hj). f_equal.
           destruct (decide (i = j)) as [<-|Hij].
           ++ rewrite decide_False by lia. rewrite decide_False; [done|].
              rewrite Nat.sub_diag. simpl. intros [_ ?]. congruence.
           ++ destruct (decide (S i <= j /\ a !! (j - S i) = Some 1)) as [[Hle Hl]|Hno].
              ** rewrite decide_True; [lia|]. split; [lia|].
                 replace (j - i) with (S (j - S i)) by lia. done.
              ** rewrite decide_False; [lia|]. intros [Hle Hl]. apply Hno.
                 split; [lia|].
                 replace (j - i) with (S (j - S i)) in Hl by lia. done.
      * destruct IH as [-> (k & Hk & Hlen)]. split; [done|].
        exists (S k). split; [done|lia].
Qed.

Lemma bit_count_cons (j : nat) (s : StepRecord) (rest : list StepRecord) :
  bit_count j (s :: rest)
  = (if decide (action s !! j = Some 1) then 1 else 0) + bit_count j rest.
Proof.
  unfold bit_count. rewrite filter_cons. by destruct (decide _).
Qed.

Lemma combo_count_cons (a : list nat) (s : StepRecord) (rest : list StepRecord) :
  combo_count a (s :: rest)
  = (if decide (action s = a) then 1 else 0) + combo_count a rest.
Proof.
  unfold combo_count. rewrite filter_cons. by destruct (decide _).
Qed.

Lemma count_steps_result (names : list string) (recorded : list StepRecord) :
  forall (on_counts : gmap string nat) (combos : gmap (list nat) nat),
  match count_steps names recorded on_counts combos with
  | Throws e =>
      e = IndexError
      /\ exists s k, s ∈ recorded /\ action s !! k = Some 1 /\ length names <= k
  | Returns (on_counts', combos') =>
      (forall s k, s ∈ recorded -> action s !! k = Some 1 -> k < length names)
      /\ (NoDup names -> forall j n, names !! j = Some n ->
            counter_get on_counts' n = counter_get on_counts n + bit_count j recorded)
      /\ (forall a, counter_get combos' a = counter_get combos a + combo_count a recorded)
  end.
Proof.
  induction recorded as [|s rest IH]; intros on_counts combos; cbn [count_steps].
  - split; [|split].
    + intros s k Hs. by apply elem_of_nil in Hs.
    + intros _ j n _. unfold bit_count. simpl. lia.
    + intros a. unfold combo_count. simpl. lia.
  - pose proof (count_bits_result names (action s) 0 on_counts) as Hbits.
    destruct (count_bits names 0 (action s) on_counts) as [on1|e].
    + destruct Hbits as [Hin Hget].
      specialize (IH on1 (counter_incr combos (action s))).
      destruct (count_steps names rest on1 (counter_incr combos (action s)))
        as [[on2 combos2]|e].
      * destruct IH as (Hin' & Hget' & Hcombo). split; [|split].
        -- intros s' k Hs' Hk. apply elem_of_cons in Hs' as [->|Hs'].
           ++ apply (Hin k Hk).
           ++ by apply (Hin' s' k).
        -- intros Hnd j n Hj. rewrite (Hget' Hnd j n Hj), (Hget Hnd j n Hj).
           rewrite bit_count_cons, Nat.sub_0_r.
           destruct (decide (action s !! j = Some 1)) as [Hl|Hl].
           ++ rewrite decide_True; [lia|]. split; [lia|done].
           ++ rewrite decide_False; [lia|]. by intros [_ ?].
        -- intros a. rewrite Hcombo, counter_get_incr, combo_count_cons. lia.
      * destruct IH as (-> & s' & k & Hs' & Hk & Hlen). split; [done|].
        exists s', k. split; [by right|done].
    + destruct Hbits as (-> & k & Hk & Hlen). split; [done|].
      exists s, k. split; [by left|]. split; [done|lia].
Qed.

Lemma on_lines_result (names : list string) (on_counts : gmap string nat) (n : nat) :
  on_lines names on_counts n
  = match names with
    | [] => Returns []
    | _ :: _ =>
        if (n =? 0)%nat then Throws ZeroDivisionError
        else Returns (map (fun nm => (nm, counter_get on_counts nm, n)) names)
    end.
Proof.
  destruct (n =? 0)%nat eqn:Hn.
  - destruct names; simpl; [done|]. by rewrite Hn.
  - assert (on_lines names on_counts n
            = Returns (map (fun nm => (nm, counter_get on_counts nm, n)) names)) as Hall.
    { induction names as [|nm names IH]; simpl; [done|]. by rewrite Hn, IH. }
    rewrite Hall. by destruct names.
Qed.

(** X16.  The errors of the report: counting raises [IndexError] exactly
    when some record has a set bit at a position the manifest's keymap has
    no name for (longer vectors whose extra bits are clear are accepted),
    it raises [ZeroDivisionError] exactly when there is no such bit, the
    manifest has no steps and the keymap is not empty, and it raises
    nothing else. *)
Theorem inspect_counts_errors (meta : Meta) :
  (inspect_counts meta = Throws IndexError
   <-> exists s k, s ∈ meta_steps meta /\ action s !! k = Some 1
         /\ length (meta_keymap meta) <= k)
  /\ (inspect_counts meta = Throws ZeroDivisionError
      <-> meta_steps meta = [] /\ meta_keymap meta <> [])
  /\ (forall e, inspect_counts meta = Throws e ->
        e = IndexError \/ e = ZeroDivisionError).
Proof.
  unfold inspect_counts.
  pose proof (count_steps_result (map fst (meta_keymap meta)) (meta_steps meta) ∅ ∅)
    as Hsteps.
  rewrite length_map in Hsteps.
  destruct (count_steps _ _ _ _) as [[on_counts combos]|e].
  - destruct Hsteps as (Hin & _ & _).
    rewrite on_lines_result.
    destruct (meta_keymap meta) as [|entry K] eqn:HK; simpl.
    + split; [|split]; [|split|]; try done.
      * split; [done|]. intros (s & k & Hs & Hk & _).
        specialize (Hin s k Hs Hk). simpl in Hin. lia.
      * by intros [_ ?].
    + destruct (meta_steps meta) as [|s0 rest] eqn:Hst; simpl.
      * split; [|split]; [|split|]; try done.
        -- split; [done|]. intros (s & k & Hs & _). by apply elem_of_nil in Hs.
        -- intros e [= <-]. by right.
      * split; [|split]; [|split|]; try done.
        -- split; [done|]. intros (s & k & Hs & Hk & Hlen).
           specialize (Hin s k Hs Hk). simpl in Hin, Hlen. lia.
        -- by intros [? _].
  - destruct Hsteps as (-> & s & k & Hs & Hk & Hlen).
    split; [|split].
    + split; [|done]. intros _. by exists s, k.
    + split; [done|]. intros [Hnil _]. rewrite Hnil in Hs. by apply elem_of_nil in Hs.
    + intros e [= <-]. by left.
Qed.

Lemma keymap_names_NoDup : NoDup (map fst KEYMAP).
Proof. apply (bool_decide_unpack _). vm_compute. reflexivity. Qed.

Lemma recorded_action_length (env : Env) (r : StepRecord) :
  r ∈ steps (snd (main env)) -> length (action r) = length KEYMAP.
Proof.
  intros Hr. apply main_steps_elem in Hr as (i & _ & ->).
  cbn [action record_of]. apply encode_length.
Qed.

(** X17.  The report on a run of the recorder.  When the run recorded
    nothing, the report stops with [ZeroDivisionError]; otherwise it has
    one line per keymap entry, in keymap order, giving the number of
    records whose bit at that position is set out of the number of records,
    and each action vector is counted as often as it was recorded. *)
Theorem inspect_counts_of_run (env : Env) :
  (steps (snd (main env)) = [] ->
   inspect_counts (meta_of env (steps (snd (main env)))) = Throws ZeroDivisionError)
  /\ (steps (snd (main env)) <> [] ->
      exists combos,
        inspect_counts (meta_of env (steps (snd (main env))))
        = Returns (imap (fun j entry =>
                           (fst entry, bit_count j (steps (snd (main env))),
                            length (steps (snd (main env)))))
                        KEYMAP, combos)
        /\ forall a, counter_get combos a = combo_count a (steps (snd (main env)))).
Proof.
  unfold inspect_counts, meta_of. cbn [meta_steps meta_keymap]. rewrite map_map.
  change (map (fun x => fst (fst x, sorted (snd x))) KEYMAP) with (map fst KEYMAP).
  pose proof (count_steps_result (map fst KEYMAP) (steps (snd (main env))) ∅ ∅)
    as Hsteps.
  destruct (count_steps _ _ _ _) as [[on_counts combos]|e].
  - destruct Hsteps as (_ & Hget & Hcombo). rewrite on_lines_result.
    split.
    + intros ->. reflexivity.
    + intros Hne. exists combos.
      destruct (steps (snd (main env))) as [|s0 rest] eqn:Hst; [done|].
      split.
      * change (map fst KEYMAP) with ("up" :: map fst (tail KEYMAP)) at 1.
        cbn [length Nat.eqb]. change ("up" :: map fst (tail KEYMAP)) with (map fst KEYMAP).
        f_equal. f_equal. apply list_eq. intros j.
        rewrite list_lookup_imap. change map with (@fmap list _) at 1.
        rewrite !list_lookup_fmap.
        destruct (KEYMAP !! j) as [entry|] eqn:Hj; [|done]. simpl.
        f_equal. f_equal. f_equal.
        rewrite (Hget keymap_names_NoDup j (fst entry)).
        -- unfold counter_get at 1. by rewrite lookup_empty.
        -- change map with (@fmap list _). by rewrite list_lookup_fmap, Hj.
      * intros a. rewrite Hcombo. unfold counter_get. by rewrite lookup_empty.
  - exfalso. destruct Hsteps as (_ & s & k & Hs & Hk & Hlen).
    apply lookup_lt_Some in Hk. rewrite (recorded_action_length env s Hs) in Hk.
    rewrite length_map in Hlen. lia.
Qed.

Lemma inspect_counts_of_run_witness :
  inspect_counts (meta_of env_esc_first (steps (snd (main env_esc_first))))
  = Throws ZeroDivisionError.
Proof.
  apply (proj1 (inspect_counts_of_run env_esc_first)). vm_compute. reflexivity.
Defined.

(** ** The training set *)

Lemma py_index_nonneg {A : Type} (l : list A) (i : nat) (x : A) :
  l !! i = Some x -> py_index l (Z.of_nat i) = Returns x.
Proof.
  intros Hx. pose proof (lookup_lt_Some _ _ _ Hx) as Hi. unfold py_index.
  destruct (Z.ltb_spec (Z.of_nat i) 0); [lia|].
  destruct (Z.ltb_spec (Z.of_nat i) 0); [lia|].
  destruct (Z.leb_spec (Z.of_nat (length l)) (Z.of_nat i)); [lia|].
  cbn [orb]. by rewrite Nat2Z.id, Hx.
Qed.

Lemma py_index_negative {A : Type} (l : list A) (i : nat) (x : A) :
  l !! i = Some x -> py_index l (Z.of_nat i - Z.of_nat (length l)) = Returns x.
Proof.
  intros Hx. pose proof (lookup_lt_Some _ _ _ Hx) as Hi. unfold py_index.
  destruct (Z.ltb_spec (Z.of_nat i - Z.of_nat (length l)) 0); [|lia].
  replace (Z.of_nat i - Z.of_nat (length l) + Z.of_nat (length l))%Z
    with (Z.of_nat i) by lia.
  destruct (Z.ltb_spec (Z.of_nat i) 0); [lia|].
  destruct (Z.leb_spec (Z.of_nat (length l)) (Z.of_nat i)); [lia|].
  cbn [orb]. by rewrite Nat2Z.id, Hx.
Qed.

Lemma py_index_out {A : Type} (l : list A) (idx : Z) :
  (idx < - Z.of_nat (length l) \/ Z.of_nat (length l) <= idx)%Z ->
  py_index l idx = Throws IndexError.
Proof.
  intros Hidx. unfold py_index.
  destruct (Z.ltb_spec idx 0).
  - destruct (Z.ltb_spec (idx + Z.of_nat (length l)) 0); [done|lia].
  - destruct (Z.ltb_spec idx 0); [lia|].
    destruct (Z.leb_spec (Z.of_nat (length l)) idx); [done|lia].
Qed.

Lemma clean_run_frame_on_disk (env : Env) (i : nat) (r : StepRecord) :
  fst (main env) = Ok () ->
  steps (snd (main env)) !! i = Some r ->
  exists obs, grabbed (ticks env i) = Some obs
    /\ disk_after ∅ (log (snd (main env))) !! path_join (out_dir (run_id env)) (frame r)
       = Some (Jpeg obs JPEG_QUALITY).
Proof.
  intros Hok Hr. destruct (main_ok_log env Hok) as [_ Hlog].
  destruct (loop_disk_frames env i r Hr) as (obs & Hobs & Hpath & Hd).
  exists obs. split; [done|].
  rewrite Hlog, disk_after_app, loop_disk. unfold finalization.
  cbn [disk_after foldl]. rewrite apply_op_dump, Hpath, lookup_insert_ne; [done|].
  intros Heq. symmetry in Heq. by apply frame_path_not_manifest in Heq.
Qed.

(** X18.  The training set of a run that wrote its manifest: it has one
    item per record; item [i], also when counted from the end as
    [i - len], is read from the frame file of tick [i] -- the tensor of the
    JPEG written at [JPEG_QUALITY] from the image grabbed in that tick --
    together with the encoding of the keys held in that tick, a label of
    [action_dim] entries; and an index outside [-len .. len - 1] raises
    [IndexError]. *)
Theorem dataset_of_clean_run {Tensor : Type} (to_tensor : Image -> nat -> Tensor)
    (env : Env) :
  fst (main env) = Ok () ->
  dataset_len (dataset_init (out_dir (run_id env))
                            (meta_of env (steps (snd (main env)))))
    = length (steps (snd (main env)))
  /\ action_dim (dataset_init (out_dir (run_id env))
                              (meta_of env (steps (snd (main env)))))
     = length KEYMAP
  /\ (forall i, i < length (steps (snd (main env))) ->
        exists obs, grabbed (ticks env i) = Some obs
          /\ dataset_getitem to_tensor (disk_after ∅ (log (snd (main env))))
               (dataset_init (out_dir (run_id env))
                             (meta_of env (steps (snd (main env)))))
               (Z.of_nat i)
             = Returns (to_tensor obs JPEG_QUALITY, encode (held_at env i) KEYMAP)
          /\ dataset_getitem to_tensor (disk_after ∅ (log (snd (main env))))
               (dataset_init (out_dir (run_id env))
                             (meta_of env (steps (snd (main env)))))
               (Z.of_nat i - Z.of_nat (length (steps (snd (main env)))))
             = Returns (to_tensor obs JPEG_QUALITY, encode (held_at env i) KEYMAP)
          /\ length (encode (held_at env i) KEYMAP) = length KEYMAP)
  /\ (forall idx,
        (idx < - Z.of_nat (length (steps (snd (main env))))
         \/ Z.of_nat (length (steps (snd (main env)))) <= idx)%Z ->
        dataset_getitem to_tensor (disk_after ∅ (log (snd (main env))))
          (dataset_init (out_dir (run_id env))
                        (meta_of env (steps (snd (main env)))))
          idx
        = Throws IndexError).
Proof.
  intros Hok. unfold dataset_len, dataset_getitem, dataset_init, meta_of.
  cbn [ds_steps action_dim rollout_dir meta_steps meta_keymap].
  split; [done|]. split; [apply length_map|]. split.
  - intros i Hi. destruct (lookup_lt_is_Some_2 _ _ Hi) as [r Hr].
    destruct (clean_run_frame_on_disk env i r Hok Hr) as (obs & Hobs & Hdisk).
    exists obs. split; [done|].
    rewrite (py_index_nonneg _ i r Hr), (py_index_negative _ i r Hr), Hdisk.
    apply main_steps_lookup in Hr as [_ ->]. cbn [action record_of].
    split; [done|]. split; [done|]. apply encode_length.
  - intros idx Hidx. by rewrite py_index_out.
Qed.

Lemma dataset_of_clean_run_witness :
  exists obs, grabbed (ticks env_stop 0) = Some obs
    /\ dataset_getitem (fun img quality => (img, quality))
         (disk_after ∅ (log (snd (main env_stop))))
         (dataset_init (out_dir (run_id env_stop))
                       (meta_of env_stop (steps (snd (main env_stop)))))
         0
       = Returns ((obs, JPEG_QUALITY), encode (held_at env_stop 0) KEYMAP).
Proof.
  destruct (proj1 (proj2 (proj2
              (dataset_of_clean_run (fun img quality => (img, quality)) env_stop
                 ltac:(vm_compute; reflexivity)))) 0)
    as (obs & Hobs & Hitem & _).
  - vm_compute. lia.
  - exists obs. split; [exact Hobs|exact Hitem].
Defined.
